(** * cachetools.ttl: an LRU cache with a per-item time-to-live

    A shallow embedding of [src/cachetools/ttl.py] ([_Timer] and [TTLCache])
    and the properties of its expiry index, access order index and
    reentrant clock snapshot.

    Conventions of the embedding.
    - Timestamps, sizes and the TTL are integers ([Z]); the source compares
      and adds them and never inspects their representation.
    - A Python [OrderedDict] (and the store's [dict]) is an association list
      in iteration order whose keys are unique.
    - A method is a function from the object's state to an outcome and the
      state it leaves: an exception keeps every mutation made before it was
      raised.
    - The underlying clock is a function of the number of times it has been
      read; the state counts the reads. *)

From Stdlib Require Import List ZArith Bool Lia String Sorted Permutation.
Import ListNotations.
Local Open Scope Z_scope.

Set Implicit Arguments.

(** ** Keys *)

(** Python keys are hashable values compared with [==]. *)
Class EqKey (K : Type) := key_eq_dec : forall x y : K, {x = y} + {x <> y}.

#[export] Instance string_EqKey : EqKey string := string_dec.

Definition keqb {K} `{EqKey K} (x y : K) : bool :=
  if key_eq_dec x y then true else false.

(** ** Ordered dictionaries *)

Definition odict (K A : Type) := list (K * A).

Section OrderedDict.
Context {K : Type} `{EqKey K} {A : Type}.

Definition od_keys (d : odict K A) : list K := map fst d.

(** [d[k]]; [None] stands for the [KeyError]. *)
Fixpoint od_get (k : K) (d : odict K A) : option A :=
  match d with
  | [] => None
  | (k', v) :: d' => if key_eq_dec k k' then Some v else od_get k d'
  end.

(** [k in d] *)
Definition od_mem (k : K) (d : odict K A) : bool :=
  match od_get k d with Some _ => true | None => false end.

(** The entries left by [del d[k]]. *)
Definition od_remove (k : K) (d : odict K A) : odict K A :=
  filter (fun p => negb (keqb k (fst p))) d.

(** [d[k] = v]: an existing key keeps its place, a new one goes last. *)
Fixpoint od_set (k : K) (v : A) (d : odict K A) : odict K A :=
  match d with
  | [] => [(k, v)]
  | (k', v') :: d' =>
      if key_eq_dec k k' then (k, v) :: d' else (k', v') :: od_set k v d'
  end.

(** [d.move_to_end(k)]; [None] stands for the [KeyError]. *)
Definition od_move_to_end (k : K) (d : odict K A) : option (odict K A) :=
  match od_get k d with
  | Some v => Some (od_remove k d ++ [(k, v)])
  | None => None
  end.
End OrderedDict.

(** ** The clock snapshot: class [_Timer] *)

(** [ticks] counts the reads of the underlying clock made so far;
    [__time] is unset until the first [__enter__]. *)
Record _Timer : Type := mk_Timer {
  ticks : nat;
  __nesting : Z;
  __time : option Z
}.

(** ** Outcomes *)

Inductive exn (K : Type) : Type :=
| KeyError (key : K)        (* KeyError(key) *)
| KeyError_empty            (* KeyError('TTLCache is empty') *)
| ValueError                (* ValueError('value too large') *)
| AttributeError            (* _Timer.__time read before it was ever set *)
| OutOfFuel.                (* a loop of the model ran out of its bound *)
Arguments KeyError {K} key.
Arguments KeyError_empty {K}.
Arguments ValueError {K}.
Arguments AttributeError {K}.
Arguments OutOfFuel {K}.

Inductive outcome (K A : Type) : Type :=
| Return (a : A)
| Raise (e : exn K).
Arguments Return {K A} a.
Arguments Raise {K A} e.

Section Timer.
Context {K : Type}.
(** [_Timer.__timer]: the [n]-th reading of the underlying clock. *)
Variable timer : nat -> Z.

Definition _Timer__init__ : _Timer :=
  {| ticks := 0; __nesting := 0; __time := None |}.

Definition _Timer__call__ (t : _Timer) : outcome K Z * _Timer :=
  if __nesting t =? 0 then
    (Return (timer (ticks t)),
     {| ticks := S (ticks t); __nesting := __nesting t; __time := __time t |})
  else
    match __time t with
    | Some x => (Return x, t)
    | None => (Raise AttributeError, t)
    end.

Definition _Timer__enter__ (t : _Timer) : outcome K Z * _Timer :=
  if __nesting t =? 0 then
    let time := timer (ticks t) in
    (Return time,
     {| ticks := S (ticks t); __nesting := __nesting t + 1;
        __time := Some time |})
  else
    match __time t with
    | Some time =>
        (Return time,
         {| ticks := ticks t; __nesting := __nesting t + 1;
            __time := __time t |})
    | None => (Raise AttributeError, t)
    end.

Definition _Timer__exit__ (t : _Timer) : _Timer :=
  {| ticks := ticks t; __nesting := __nesting t - 1; __time := __time t |}.

(** A client of the timer: the three things the cache does with it. *)
Inductive timer_action : Type := Call | Enter | Exit.

Definition timer_step (a : timer_action) (t : _Timer)
  : option (outcome K Z) * _Timer :=
  match a with
  | Call => let (r, t') := _Timer__call__ t in (Some r, t')
  | Enter => let (r, t') := _Timer__enter__ t in (Some r, t')
  | Exit => (None, _Timer__exit__ t)
  end.

(** Runs the actions in order and collects what the calls and enters
    returned. *)
Fixpoint timer_run (acts : list timer_action) (t : _Timer)
  : list (outcome K Z) * _Timer :=
  match acts with
  | [] => ([], t)
  | a :: acts' =>
      let (r, t1) := timer_step a t in
      let (rs, t2) := timer_run acts' t1 in
      (match r with Some x => x :: rs | None => rs end, t2)
  end.

(** The actions never leave a scope that is [depth] deep: no prefix has
    [depth] more exits than enters. *)
Fixpoint within_scope (depth : Z) (acts : list timer_action) : bool :=
  match acts with
  | [] => true
  | Call :: acts' => within_scope depth acts'
  | Enter :: acts' => within_scope (depth + 1) acts'
  | Exit :: acts' => (1 <? depth) && within_scope (depth - 1) acts'
  end.
End Timer.

(** [_Timer.__reduce__]: a pickled timer is rebuilt as [_Timer(timer)]
    around the same clock, outside every scope and with no snapshot. *)
Definition _Timer__reduce__ (t : _Timer) : _Timer :=
  {| ticks := ticks t; __nesting := 0; __time := None |}.

(** ** The cache state *)

Record TTLCache (K V : Type) : Type := mkTTLCache {
  __data : odict K V;            (* Cache.__data, the bounded store *)
  __expiry_info : odict K Z;     (* TTLCache.__expiry_info *)
  __order : odict K unit;        (* TTLCache.__order, values are None *)
  __timer : _Timer               (* TTLCache.__timer *)
}.

Section TTL.
Context {K V : Type} `{EqKey K}.
(** The constructor's arguments. *)
Variable maxsize : Z.
Variable ttl : Z.
Variable timer : nat -> Z.
Variable getsizeof : V -> Z.

Abbreviation cache := (TTLCache K V).

(** [TTLCache.__init__] *)
Definition TTLCache__init__ : cache :=
  {| __data := []; __expiry_info := []; __order := [];
     __timer := _Timer__init__ |}.

(** *** Methods as state transformers *)

Definition M (A : Type) : Type := cache -> outcome K A * cache.

Definition ret {A} (a : A) : M A := fun s => (Return a, s).
Definition raise {A} (e : exn K) : M A := fun s => (Raise e, s).
Definition bind {A B} (m : M A) (f : A -> M B) : M B := fun s =>
  match m s with
  | (Return a, s') => f a s'
  | (Raise e, s') => (Raise e, s')
  end.

Notation "x <- c1 ;; c2" := (bind c1 (fun x => c2))
  (at level 61, c1 at next level, right associativity).
Notation "c1 ;; c2" := (bind c1 (fun _ => c2))
  (at level 61, right associativity).

Definition get_self : M cache := fun s => (Return s, s).

(** [try: m / except KeyError: None / else: Some] *)
Definition try_KeyError {A} (m : M A) : M (option A) := fun s =>
  match m s with
  | (Return a, s') => (Return (Some a), s')
  | (Raise (KeyError _), s') => (Return None, s')
  | (Raise KeyError_empty, s') => (Return None, s')
  | (Raise e, s') => (Raise e, s')
  end.

Definition set_data (d : odict K V) (s : cache) : cache :=
  {| __data := d; __expiry_info := __expiry_info s;
     __order := __order s; __timer := __timer s |}.
Definition set_expiry_info (d : odict K Z) (s : cache) : cache :=
  {| __data := __data s; __expiry_info := d;
     __order := __order s; __timer := __timer s |}.
Definition set_order (d : odict K unit) (s : cache) : cache :=
  {| __data := __data s; __expiry_info := __expiry_info s;
     __order := d; __timer := __timer s |}.
Definition set_timer (t : _Timer) (s : cache) : cache :=
  {| __data := __data s; __expiry_info := __expiry_info s;
     __order := __order s; __timer := t |}.

(** *** The timer held by the cache *)

(** [self.__timer()] *)
Definition timer_call : M Z := fun s =>
  let (r, t) := _Timer__call__ timer (__timer s) in (r, set_timer t s).

(** [with self.__timer as time: body]; [__exit__] runs on every way out
    of the body and lets an exception through. *)
Definition with_timer {A} (body : Z -> M A) : M A := fun s =>
  match _Timer__enter__ (K := K) timer (__timer s) with
  | (Return time, t) =>
      let (r, s') := body time (set_timer t s) in
      (r, set_timer (_Timer__exit__ (__timer s')) s')
  | (Raise e, t) => (Raise e, set_timer t s)
  end.

(** *** Statements on the two indexes *)

(** [self.__expiry_info[key]] *)
Definition expiry_getitem (key : K) : M Z := fun s =>
  match od_get key (__expiry_info s) with
  | Some e => (Return e, s)
  | None => (Raise (KeyError key), s)
  end.

(** [del self.__expiry_info[key]] *)
Definition expiry_delitem (key : K) : M unit := fun s =>
  if od_mem key (__expiry_info s)
  then (Return tt, set_expiry_info (od_remove key (__expiry_info s)) s)
  else (Raise (KeyError key), s).

(** [self.__expiry_info.pop(key)] *)
Definition expiry_pop (key : K) : M Z := fun s =>
  match od_get key (__expiry_info s) with
  | Some e => (Return e, set_expiry_info (od_remove key (__expiry_info s)) s)
  | None => (Raise (KeyError key), s)
  end.

(** [self.__expiry_info[key] = e] *)
Definition expiry_setitem (key : K) (e : Z) : M unit := fun s =>
  (Return tt, set_expiry_info (od_set key e (__expiry_info s)) s).

(** [del self.__order[key]] *)
Definition order_delitem (key : K) : M unit := fun s =>
  if od_mem key (__order s)
  then (Return tt, set_order (od_remove key (__order s)) s)
  else (Raise (KeyError key), s).

(** [self.__order[key] = None] *)
Definition order_setitem (key : K) : M unit := fun s =>
  (Return tt, set_order (od_set key tt (__order s)) s).

(** [self.__order.move_to_end(key)] *)
Definition order_move_to_end (key : K) : M unit := fun s =>
  match od_move_to_end key (__order s) with
  | Some o => (Return tt, set_order o s)
  | None => (Raise (KeyError key), s)
  end.

(** *** The base class [Cache]: the bounded store *)

(** Modelled from the spec: [Cache.currsize] (cachetools/cache.py is not
    part of the sources).  The store's current accounted size: the sum of
    the sizes of the stored values. *)
Definition Cache_currsize (s : cache) : Z :=
  fold_right (fun p acc => getsizeof (snd p) + acc) 0 (__data s).

(** Modelled from the spec: [Cache.__missing__], the handling of a lookup
    that finds nothing; it raises the not-found error. *)
Definition Cache__missing__ (key : K) : M V := raise (KeyError key).

(** Modelled from the spec: [Cache.__getitem__], the store's
    [get(key) -> value or NotFound]. *)
Definition Cache__getitem__ (key : K) : M V := fun s =>
  match od_get key (__data s) with
  | Some v => (Return v, s)
  | None => Cache__missing__ key s
  end.

(** Modelled from the spec: [Cache.__delitem__], the store's
    [delete(key)]; an absent key is the not-found error. *)
Definition Cache__delitem__ (key : K) : M unit := fun s =>
  if od_mem key (__data s)
  then (Return tt, set_data (od_remove key (__data s)) s)
  else (Raise (KeyError key), s).

(** Modelled from the spec: [Cache.pop], the full delete-then-return that
    goes through the get path.  [getitem] and [delitem] are [self[key]]
    and [del self[key]] of the object the method is called on. *)
Definition Cache_pop (getitem : K -> M V) (delitem : K -> M unit)
    (key : K) : M V :=
  value <- getitem key ;;
  delitem key ;;
  ret value.

(** Modelled from the spec: the store's budget test.  Writing [value]
    under [key] would leave the total accounted size above [maxsize]
    (a value already stored under [key] is replaced, not added to). *)
Definition over_budget (key : K) (size : Z) (s : cache) : bool :=
  let old := match od_get key (__data s) with
             | Some v => getsizeof v
             | None => 0
             end in
  maxsize <? Cache_currsize s - old + size.

(** Modelled from the spec: the eviction loop of [Cache.__setitem__]:
    entries are evicted through [self.popitem()] until the write is
    within budget.  Every turn of the loop that does not raise removes
    an entry, so the bound taken by [Cache__setitem__] is never
    reached. *)
Fixpoint Cache_evict (fuel : nat) (popitem : M (K * V))
    (key : K) (size : Z) : M unit := fun s =>
  if over_budget key size s then
    match fuel with
    | O => (Raise OutOfFuel, s)
    | S fuel' =>
        (popitem ;; Cache_evict fuel' popitem key size) s
    end
  else (Return tt, s).

(** Modelled from the spec: [Cache.__setitem__], the store's
    [set(key, value)]: a value whose size alone exceeds [maxsize] is
    refused; otherwise entries are evicted in the order the cache's
    [popitem] reports until the value fits, and the value is stored. *)
Definition Cache__setitem__ (popitem : M (K * V))
    (key : K) (value : V) : M unit :=
  let size := getsizeof value in
  if maxsize <? size then raise ValueError
  else
    s <- get_self ;;
    Cache_evict (S (List.length (__data s))) popitem key size ;;
    (fun s => (Return tt, set_data (od_set key value (__data s)) s)).

(** *** class [TTLCache] *)

(** [TTLCache.__getexpiry]; both definitions of the source (with
    [move_to_end], or with [del] and re-insertion) read the expiry time
    and move the key to the most recently used end. *)
Definition __getexpiry (key : K) : M Z :=
  expiry_time <- expiry_getitem key ;;
  order_move_to_end key ;;
  ret expiry_time.

(** [TTLCache.__contains__] *)
Definition __contains__ (key : K) : M bool :=
  r <- try_KeyError (expiry_getitem key) ;;
  match r with
  | None => ret false
  | Some expiry_time =>
      now <- timer_call ;;
      ret (now <=? expiry_time)
  end.

(** [TTLCache.__getitem__] *)
Definition __getitem__ (key : K) : M V :=
  r <- try_KeyError (__getexpiry key) ;;
  expired <- match r with
             | None => ret false
             | Some expiry_time =>
                 now <- timer_call ;;
                 ret (expiry_time <? now)
             end ;;
  if (expired : bool) then Cache__missing__ key
  else Cache__getitem__ key.

(** [TTLCache.__delitem__] *)
Definition __delitem__ (key : K) : M unit :=
  Cache__delitem__ key ;;
  order_delitem key ;;
  expiry_time <- expiry_pop key ;;
  now <- timer_call ;;
  if expiry_time <? now then raise (KeyError key) else ret tt.

(** The loop of [TTLCache.expire] over the copy of the expiry index. *)
Fixpoint expire_loop (items : list (K * Z)) (time : Z) : M unit :=
  match items with
  | [] => ret tt
  | (key, expiry_time) :: items' =>
      if time <=? expiry_time then ret tt
      else
        Cache__delitem__ key ;;
        expiry_delitem key ;;
        order_delitem key ;;
        expire_loop items' time
  end.

(** [TTLCache.expire] *)
Definition expire (time : option Z) : M unit :=
  time <- match time with
          | None => timer_call
          | Some t => ret t
          end ;;
  s <- get_self ;;
  expire_loop (__expiry_info s) time.

(** [TTLCache.pop] *)
Definition pop (key : K) : M V :=
  with_timer (fun _ => Cache_pop __getitem__ __delitem__ key).

(** [TTLCache.popitem]: the block under [with self.__timer as time], and
    the method. *)
Definition popitem_with (time : Z) : M (K * V) :=
  expire (Some time) ;;
  s <- get_self ;;
  match __order s with
  | [] => raise KeyError_empty
  | (key, _) :: _ =>
      value <- pop key ;;
      ret (key, value)
  end.

Definition popitem : M (K * V) := with_timer popitem_with.

(** [TTLCache.__setitem__]: the block under [with self.__timer as time],
    and the method. *)
Definition setitem_with (key : K) (value : V) (time : Z) : M unit :=
  expire (Some time) ;;
  Cache__setitem__ popitem key value ;;
  r <- try_KeyError (__getexpiry key) ;;
  match r with
  | None => order_setitem key
  | Some _ => expiry_delitem key
  end ;;
  expiry_setitem key (time + ttl).

Definition __setitem__ (key : K) (value : V) : M unit :=
  with_timer (setitem_with key value).

(** Modelled from the spec: [Cache.clear], "remove everything"; the base
    class knows the entries only through the mapping interface and pops
    items until the cache reports that it is empty. *)
Fixpoint Cache_clear (fuel : nat) (popitem : M (K * V)) : M unit := fun s =>
  match fuel with
  | O => (Raise OutOfFuel, s)
  | S fuel' =>
      match popitem s with
      | (Return _, s') => Cache_clear fuel' popitem s'
      | (Raise (KeyError _), s') => (Return tt, s')
      | (Raise KeyError_empty, s') => (Return tt, s')
      | (Raise e, s') => (Raise e, s')
      end
  end.

(** [TTLCache.clear]: the block under [with self.__timer as time], and the
    method. *)
Definition clear_with (time : Z) : M unit :=
  expire (Some time) ;;
  s <- get_self ;;
  Cache_clear (S (List.length (__data s))) popitem.

Definition clear : M unit := with_timer clear_with.

(** [TTLCache.__len__] *)
Fixpoint len_loop (items : list (K * Z)) (time : Z) (count : Z) : Z :=
  match items with
  | [] => count
  | (_, expiry_time) :: items' =>
      if expiry_time <? time then len_loop items' time (count - 1)
      else count
  end.

Definition __len__ : M Z :=
  time <- timer_call ;;
  s <- get_self ;;
  ret (len_loop (__expiry_info s) time
         (Z.of_nat (List.length (__expiry_info s)))).

(** [TTLCache.__iter__], run to exhaustion with nothing done between two
    yields (as [list(cache)] does): the keys the generator yields.  Each
    entry is checked inside a [with self.__timer as time] block of its
    own. *)
Fixpoint iter_loop (items : list (K * Z)) : M (list K) :=
  match items with
  | [] => ret []
  | (key, expiry_time) :: items' =>
      yielded <- with_timer (fun time => ret (negb (expiry_time <? time))) ;;
      keys <- iter_loop items' ;;
      ret (if (yielded : bool) then key :: keys else keys)
  end.

Definition __iter__ : M (list K) :=
  s <- get_self ;;
  iter_loop (__expiry_info s).

(** [TTLCache.__setstate__]: the object's attributes become those of
    [state], then expired items are removed at the current time. *)
Definition __setstate__ (state : cache) : M unit := fun _ =>
  (time <- timer_call ;; expire (Some time)) state.

(** [TTLCache.currsize]; [super().currsize] is [Cache_currsize]. *)
Definition currsize : M Z :=
  with_timer (fun time =>
    expire (Some time) ;;
    s <- get_self ;;
    ret (Cache_currsize s)).

End TTL.

(** ** Invariants of the three structures *)

(** The entries whose key passes [keep], in their order. *)
Definition od_filter {K A : Type} (keep : K -> bool) (d : odict K A)
  : odict K A :=
  filter (fun p => keep (fst p)) d.

Section Invariants.
Context {K V : Type} `{EqKey K}.
Variable ttl : Z.
Variable timer : nat -> Z.

Abbreviation cache := (TTLCache K V).

(** A dictionary holds one entry per key. *)
Definition unique_keys (s : cache) : Prop :=
  NoDup (od_keys (__data s)) /\
  NoDup (od_keys (__expiry_info s)) /\
  NoDup (od_keys (__order s)).

(** The bounded store, the access order index and the expiry index hold
    the same keys. *)
Definition lockstep (s : cache) : Prop :=
  forall k : K,
    od_mem k (__data s) = od_mem k (__order s) /\
    od_mem k (__order s) = od_mem k (__expiry_info s).

(** The expiry index iterates in non-decreasing order of expiry time. *)
Definition expiry_sorted (s : cache) : Prop :=
  StronglySorted Z.le (map snd (__expiry_info s)).

(** No recorded expiry time lies beyond what a write at a later reading
    of the clock records. *)
Definition expiry_bounded (s : cache) : Prop :=
  forall (k : K) (e : Z), In (k, e) (__expiry_info s) ->
  forall j : nat, (ticks (__timer s) <= j)%nat -> e <= timer j + ttl.

(** The timer is inside [__nesting] scopes, and inside a scope it holds
    a snapshot. *)
Definition timer_ok (t : _Timer) : Prop :=
  0 <= __nesting t /\ (__nesting t = 0 \/ __time t <> None).

(** The timer is inside a scope whose snapshot is [now]. *)
Definition in_scope (now : Z) (s : cache) : Prop :=
  0 < __nesting (__timer s) /\ __time (__timer s) = Some now.

(** The clock never runs backwards. *)
Definition monotone : Prop :=
  forall i j : nat, (i <= j)%nat -> timer i <= timer j.

(** The cache with only the keys that pass [keep]. *)
Definition restrict (keep : K -> bool) (s : cache) : cache :=
  {| __data := od_filter keep (__data s);
     __expiry_info := od_filter keep (__expiry_info s);
     __order := od_filter keep (__order s);
     __timer := __timer s |}.

(** The cache after [key] was moved to the most recently used end. *)
Definition touch (key : K) (s : cache) : cache :=
  set_order (od_remove key (__order s) ++ [(key, tt)]) s.

(** The entries at the front of the expiry index that [expire] removes:
    those before the first one that is live at [now]. *)
Fixpoint expired_prefix (items : odict K Z) (now : Z) : odict K Z :=
  match items with
  | [] => []
  | (k, e) :: items' =>
      if now <=? e then [] else (k, e) :: expired_prefix items' now
  end.

(** The cache without the keys of the expired front of its expiry index. *)
Definition purged (now : Z) (s : cache) : cache :=
  restrict (fun k => negb (od_mem k (expired_prefix (__expiry_info s) now))) s.

(** The cache without [key]. *)
Definition without (key : K) (s : cache) : cache :=
  restrict (fun k => negb (keqb key k)) s.

(** Unique keys, and the same keys in the three structures. *)
Definition consistent (s : cache) : Prop := unique_keys s /\ lockstep s.

(** [s'] holds some of the entries of [s], those of the store and of the
    expiry index in the order they had. *)
Definition shrinks (s s' : cache) : Prop :=
  exists keep : K -> bool,
    __data s' = od_filter keep (__data s) /\
    __expiry_info s' = od_filter keep (__expiry_info s) /\
    (forall k, od_mem k (__order s') = keep k && od_mem k (__order s)) /\
    (NoDup (od_keys (__order s)) -> NoDup (od_keys (__order s'))).

(** [s'] holds some of the entries of [s], all in the order they had. *)
Definition restricted (s s' : cache) : Prop :=
  exists keep : K -> bool,
    __data s' = od_filter keep (__data s) /\
    __expiry_info s' = od_filter keep (__expiry_info s) /\
    __order s' = od_filter keep (__order s).

(** The snapshot a [with self.__timer] block opened in [s] sees, the state
    in which the block starts and the state [__exit__] leaves. *)
Definition snapshot (s : cache) : option Z :=
  if __nesting (__timer s) =? 0 then Some (timer (ticks (__timer s)))
  else __time (__timer s).

Definition entered (s : cache) : cache :=
  set_timer (snd (_Timer__enter__ (K := K) timer (__timer s))) s.

Definition exited (s : cache) : cache :=
  set_timer (_Timer__exit__ (__timer s)) s.

(** [t'] is [t] after some complete steps of the cache: at the same depth,
    with no fewer reads of the clock. *)
Definition timer_advances (t t' : _Timer) : Prop :=
  __nesting t' = __nesting t /\ (ticks t <= ticks t')%nat /\ timer_ok t'.

(** What holds of a cache between two operations. *)
Definition Inv (s : cache) : Prop :=
  consistent s /\ expiry_sorted s /\ expiry_bounded s /\
  __nesting (__timer s) = 0.
End Invariants.

(** ** Positions in the access order *)

Section Positions.
Context {K : Type} `{EqKey K}.

(** The position of [k] in the iteration order of [o]. *)
Fixpoint od_index (k : K) (o : odict K unit) : option nat :=
  match o with
  | [] => None
  | (k', _) :: o' =>
      if key_eq_dec k k' then Some O
      else match od_index k o' with
           | Some n => Some (S n)
           | None => None
           end
  end.

(** [k] is nearer than [k'] to the least recently used end of [o]. *)
Definition precedes (k k' : K) (o : odict K unit) : bool :=
  match od_index k o, od_index k' o with
  | Some i, Some j => (i <? j)%nat
  | _, _ => false
  end.

(** [key] stands in [o'] where it stood in [o] relative to every other
    key that is in both. *)
Definition keeps_position (key : K) (o o' : odict K unit) : Prop :=
  forall k' : K, k' <> key ->
    od_mem k' o = true -> od_mem k' o' = true ->
    precedes key k' o' = precedes key k' o /\
    precedes k' key o' = precedes k' key o.
End Positions.

(** ** The public operations *)

Section Operations.
Context {K V : Type} `{EqKey K}.
Variable maxsize : Z.
Variable ttl : Z.
Variable timer : nat -> Z.
Variable getsizeof : V -> Z.

Inductive op : Type :=
| Set_ (key : K) (value : V)      (* cache[key] = value *)
| Get_ (key : K)                  (* cache[key] *)
| Del_ (key : K)                  (* del cache[key] *)
| Contains_ (key : K)             (* key in cache *)
| Expire_ (time : option Z)       (* cache.expire(time) *)
| Pop_ (key : K)                  (* cache.pop(key) *)
| Popitem_                        (* cache.popitem() *)
| Clear_                          (* cache.clear() *)
| Len_.                           (* len(cache) *)

(** The state an operation leaves, whether it returned or raised. *)
Definition exec (o : op) (s : TTLCache K V) : TTLCache K V :=
  match o with
  | Set_ key value => snd (__setitem__ maxsize ttl timer getsizeof key value s)
  | Get_ key => snd (__getitem__ timer key s)
  | Del_ key => snd (__delitem__ timer key s)
  | Contains_ key => snd (__contains__ (V := V) timer key s)
  | Expire_ time => snd (expire timer time s)
  | Pop_ key => snd (pop timer key s)
  | Popitem_ => snd (popitem timer s)
  | Clear_ => snd (clear timer s)
  | Len_ => snd (__len__ (V := V) timer s)
  end.

(** The states a cache goes through from its construction. *)
Inductive reachable : TTLCache K V -> Prop :=
| reachable_init : reachable (TTLCache__init__ (K := K) (V := V))
| reachable_exec (o : op) (s : TTLCache K V) :
    reachable s -> reachable (exec o s).

(** The state after a sequence of writes [cache[key] = value]. *)
Definition run_sets (kvs : list (K * V)) (s : TTLCache K V) : TTLCache K V :=
  fold_left (fun s kv => exec (Set_ (fst kv) (snd kv)) s) kvs s.
End Operations.

(** ** A small cache to run *)

(** A clock that reads 0, 1, 2, ...: the [n]-th operation that opens a
    snapshot scope runs at time [n]. *)
Definition clock (n : nat) : Z := Z.of_nat n.

(** [getsizeof] when none is given: every value counts 1. *)
Definition unit_size (_ : Z) : Z := 1.

(** [TTLCache(maxsize=2, ttl=10, timer=clock)] with string keys. *)
Definition small_init : TTLCache string Z := TTLCache__init__.

Definition small_exec (o : op (K := string) (V := Z))
  : TTLCache string Z -> TTLCache string Z :=
  exec 2 10 clock unit_size o.

Definition small_reachable : TTLCache string Z -> Prop :=
  reachable 2 10 clock unit_size.

(** The cache after [c["a"] = 1] at time 0 and [c["b"] = 2] at time 1. *)
Definition small_ab : TTLCache string Z :=
  small_exec (Set_ "b"%string 2) (small_exec (Set_ "a"%string 1) small_init).

(** [small_ab] inside a [with cache.timer] block opened at time 2. *)
Definition small_ab_in_scope : TTLCache string Z := entered clock small_ab.

(** [small_ab] as pickled: with its timer rebuilt by [__reduce__]. *)
Definition small_ab_pickled : TTLCache string Z :=
  set_timer (_Timer__reduce__ (__timer small_ab)) small_ab.

(** * Properties *)

Unset Implicit Arguments.

(** ** The clock snapshot *)

Section TimerFacts.
Context {K : Type}.
Variable timer : nat -> Z.

Lemma timer_run_in_scope (now : Z) (acts : list timer_action) :
  forall (depth : Z) (t : _Timer),
    within_scope depth acts = true ->
    0 < depth ->
    __nesting t = depth ->
    __time t = Some now ->
    Forall (fun r => r = Return now) (fst (timer_run (K := K) timer acts t)) /\
    ticks (snd (timer_run (K := K) timer acts t)) = ticks t /\
    __time (snd (timer_run (K := K) timer acts t)) = Some now /\
    0 < __nesting (snd (timer_run (K := K) timer acts t)).
Proof.
  induction acts as [|a acts IH]; intros depth t Hscope Hpos Hn Ht.
  - simpl. repeat split; auto; lia.
  - assert (Hnz : (__nesting t =? 0) = false) by (apply Z.eqb_neq; lia).
    destruct a; simpl in Hscope |- *.
    + unfold _Timer__call__. rewrite Hnz, Ht.
      destruct (IH depth t Hscope Hpos Hn Ht) as (Hrs & Hk & Hc & Hd).
      destruct (timer_run timer acts t) as [rs t2]; simpl in *.
      repeat split; auto.
    + unfold _Timer__enter__. rewrite Hnz, Ht.
      set (t1 := {| ticks := ticks t; __nesting := __nesting t + 1;
                    __time := Some now |}).
      destruct (IH (depth + 1) t1 Hscope) as (Hrs & Hk & Hc & Hd);
        try (subst t1; simpl; auto; lia).
      destruct (timer_run timer acts t1) as [rs t2]; simpl in *.
      repeat split; auto.
    + apply andb_true_iff in Hscope. destruct Hscope as [Hd1 Hscope].
      apply Z.ltb_lt in Hd1.
      destruct (IH (depth - 1) (_Timer__exit__ t) Hscope) as (Hrs & Hk & Hc & Hd);
        try (unfold _Timer__exit__; simpl; auto; lia).
      destruct (timer_run timer acts (_Timer__exit__ t)) as [rs t2]; simpl in *.
      repeat split; auto.
Qed.

(** C8. Outside every scope a call of the timer reads the underlying
    clock.  [__enter__] at depth 0 reads the clock once and caches the
    reading; from then on, for any sequence of calls, nested enters and
    exits that stays inside the scope, to any nesting depth, every call
    and every enter returns the cached reading and the underlying clock
    is not read again. *)
Theorem timer_snapshot_reentrant (t : _Timer) (acts : list timer_action) :
  __nesting t = 0 ->
  within_scope 1 acts = true ->
  let now := timer (ticks t) in
  let t1 := snd (_Timer__enter__ (K := K) timer t) in
  _Timer__call__ (K := K) timer t =
    (Return now,
     {| ticks := S (ticks t); __nesting := 0; __time := __time t |}) /\
  fst (_Timer__enter__ (K := K) timer t) = Return now /\
  t1 = {| ticks := S (ticks t); __nesting := 1; __time := Some now |} /\
  Forall (fun r => r = Return now) (fst (timer_run (K := K) timer acts t1)) /\
  ticks (snd (timer_run (K := K) timer acts t1)) = S (ticks t) /\
  __time (snd (timer_run (K := K) timer acts t1)) = Some now /\
  0 < __nesting (snd (timer_run (K := K) timer acts t1)).
Proof.
  intros Hn Hscope now t1.
  assert (Et1 : t1 = {| ticks := S (ticks t); __nesting := 1;
                        __time := Some now |}).
  { subst t1 now. unfold _Timer__enter__. rewrite Hn. reflexivity. }
  split; [unfold _Timer__call__; rewrite Hn; reflexivity|].
  split; [unfold _Timer__enter__; rewrite Hn; reflexivity|].
  split; [exact Et1|].
  clearbody t1. subst t1.
  apply (@timer_run_in_scope now acts 1); simpl; auto; lia.
Qed.
End TimerFacts.

(** Three levels of nesting and calls at each of them, on a clock that
    reads 5, 6, 7, ... *)
Lemma timer_snapshot_reentrant_witness :
  let t := {| ticks := 2; __nesting := 0; __time := Some 3 |} in
  let acts := [Call; Enter; Call; Enter; Call; Exit; Call; Exit; Call] in
  fst (timer_run (K := string) (fun n => Z.of_nat n + 5) acts
         (snd (_Timer__enter__ (K := string) (fun n => Z.of_nat n + 5) t)))
    = [Return 7; Return 7; Return 7; Return 7; Return 7; Return 7; Return 7] /\
  Forall (fun r => r = Return 7)
    (fst (timer_run (K := string) (fun n => Z.of_nat n + 5) acts
            (snd (_Timer__enter__ (K := string) (fun n => Z.of_nat n + 5) t)))).
Proof.
  split; [reflexivity|].
  apply (@timer_snapshot_reentrant string (fun n => Z.of_nat n + 5)
           {| ticks := 2; __nesting := 0; __time := Some 3 |}
           [Call; Enter; Call; Enter; Call; Exit; Call; Exit; Call]);
    reflexivity.
Defined.

(** ** Ordered dictionaries *)

Section OrderedDictFacts.
Context {K : Type} `{EqKey K} {A : Type}.
Implicit Types (d : odict K A) (k : K) (keep : K -> bool).

Lemma keqb_refl k : keqb k k = true.
Proof. unfold keqb. destruct (key_eq_dec k k); congruence. Qed.

Lemma keqb_eq k k' : keqb k k' = true <-> k = k'.
Proof. unfold keqb. destruct (key_eq_dec k k'); split; congruence. Qed.

Lemma keqb_neq k k' : keqb k k' = false <-> k <> k'.
Proof. unfold keqb. destruct (key_eq_dec k k'); split; congruence. Qed.

Lemma od_remove_filter k d :
  od_remove k d = od_filter (fun x => negb (keqb k x)) d.
Proof. reflexivity. Qed.

Lemma od_get_filter keep k d :
  od_get k (od_filter keep d) = if keep k then od_get k d else None.
Proof.
  induction d as [|[k' v] d IH]; simpl.
  - destruct (keep k); reflexivity.
  - destruct (keep k') eqn:Ek'; simpl;
      destruct (key_eq_dec k k') as [->|Hne]; rewrite ?IH, ?Ek'; auto.
Qed.

Lemma od_mem_filter keep k d :
  od_mem k (od_filter keep d) = keep k && od_mem k d.
Proof.
  unfold od_mem. rewrite od_get_filter. destruct (keep k); reflexivity.
Qed.

Lemma od_keys_filter keep d :
  od_keys (od_filter keep d) = filter keep (od_keys d).
Proof.
  induction d as [|[k' v] d IH]; simpl; auto.
  destruct (keep k'); simpl; rewrite IH; reflexivity.
Qed.

Lemma od_filter_filter keep keep' d :
  od_filter keep (od_filter keep' d) =
  od_filter (fun x => keep' x && keep x) d.
Proof.
  induction d as [|[k' v] d IH]; simpl; auto.
  destruct (keep' k') eqn:E'; simpl; [destruct (keep k')|]; rewrite IH; auto.
Qed.

Lemma od_filter_app keep d d' :
  od_filter keep (d ++ d') = od_filter keep d ++ od_filter keep d'.
Proof. apply filter_app. Qed.

Lemma od_mem_In k d : od_mem k d = true <-> In k (od_keys d).
Proof.
  unfold od_mem. induction d as [|[k' v] d IH]; simpl.
  - split; [discriminate | tauto].
  - destruct (key_eq_dec k k') as [->|Hne].
    + split; auto.
    + rewrite IH. split; [auto | intros [E|Hin]; congruence].
Qed.

Lemma od_mem_false k d : od_mem k d = false <-> ~ In k (od_keys d).
Proof.
  rewrite <- od_mem_In. destruct (od_mem k d); split; congruence.
Qed.

Lemma od_get_mem k d v : od_get k d = Some v -> od_mem k d = true.
Proof. unfold od_mem. intros ->. reflexivity. Qed.

Lemma od_mem_get k d : od_mem k d = true -> exists v, od_get k d = Some v.
Proof. unfold od_mem. destruct (od_get k d); [eauto | discriminate]. Qed.

Lemma od_get_In k d v : od_get k d = Some v -> In (k, v) d.
Proof.
  induction d as [|[k' v'] d IH]; simpl; [discriminate|].
  destruct (key_eq_dec k k') as [->|Hne]; [intros [= ->]; auto | auto].
Qed.

Lemma od_In_get k d v :
  NoDup (od_keys d) -> In (k, v) d -> od_get k d = Some v.
Proof.
  induction d as [|[k' v'] d IH]; simpl; [tauto|].
  intros Hnd [E|Hin].
  - inversion E; subst. destruct (key_eq_dec k k); congruence.
  - inversion Hnd as [|? ? Hni Hnd']; subst.
    destruct (key_eq_dec k k') as [E|Hne]; auto.
    exfalso. apply Hni. subst k'.
    change k with (fst (k, v)). now apply in_map.
Qed.

Lemma od_filter_id keep d :
  (forall k, od_mem k d = true -> keep k = true) -> od_filter keep d = d.
Proof.
  induction d as [|[k' v] d IH]; simpl; auto. intros Hk.
  rewrite (Hk k').
  - f_equal. apply IH. intros k Hm. apply Hk.
    unfold od_mem in *. simpl. destruct (key_eq_dec k k'); auto.
  - unfold od_mem. simpl. destruct (key_eq_dec k' k'); congruence.
Qed.

Lemma od_filter_ext keep keep' d :
  (forall k, keep k = keep' k) -> od_filter keep d = od_filter keep' d.
Proof. intros E. apply filter_ext. intros p. apply E. Qed.

Lemma od_remove_absent k d : od_mem k d = false -> od_remove k d = d.
Proof.
  intros Hk. rewrite od_remove_filter. apply od_filter_id.
  intros k' Hm. destruct (keqb k k') eqn:E; auto.
  apply keqb_eq in E. congruence.
Qed.

Lemma od_mem_remove k k' d :
  od_mem k' (od_remove k d) = negb (keqb k k') && od_mem k' d.
Proof. rewrite od_remove_filter. apply od_mem_filter. Qed.

Lemma od_mem_remove_same k d : od_mem k (od_remove k d) = false.
Proof. rewrite od_mem_remove, keqb_refl. reflexivity. Qed.

Lemma od_get_app k d d' :
  od_get k (d ++ d') =
  match od_get k d with Some v => Some v | None => od_get k d' end.
Proof.
  induction d as [|[k' v] d IH]; simpl; auto.
  destruct (key_eq_dec k k'); auto.
Qed.

Lemma od_mem_app k d d' : od_mem k (d ++ d') = od_mem k d || od_mem k d'.
Proof.
  unfold od_mem. rewrite od_get_app. destruct (od_get k d); reflexivity.
Qed.

Lemma od_mem_single k k' (v : A) : od_mem k' [(k, v)] = keqb k' k.
Proof. unfold od_mem, keqb. simpl. destruct (key_eq_dec k' k); auto. Qed.

Lemma od_set_absent k v d : od_mem k d = false -> od_set k v d = d ++ [(k, v)].
Proof.
  unfold od_mem. induction d as [|[k' v'] d IH]; simpl; auto.
  destruct (key_eq_dec k k'); [discriminate|]. intros Hk. now rewrite IH.
Qed.

Lemma od_get_set k k' v d :
  od_get k' (od_set k v d) = if key_eq_dec k' k then Some v else od_get k' d.
Proof.
  induction d as [|[k0 v0] d IH]; simpl.
  - destruct (key_eq_dec k' k); auto.
  - destruct (key_eq_dec k k0) as [->|Hne]; simpl.
    + destruct (key_eq_dec k' k0); auto.
    + rewrite IH. destruct (key_eq_dec k' k0) as [E|Hne'];
        destruct (key_eq_dec k' k); congruence.
Qed.

Lemma od_mem_set k k' v d :
  od_mem k' (od_set k v d) = keqb k' k || od_mem k' d.
Proof.
  unfold od_mem, keqb. rewrite od_get_set.
  destruct (key_eq_dec k' k); reflexivity.
Qed.

Lemma od_keys_set_present k v d :
  od_mem k d = true -> od_keys (od_set k v d) = od_keys d.
Proof.
  unfold od_mem. induction d as [|[k' v'] d IH]; simpl; [discriminate|].
  destruct (key_eq_dec k k') as [->|Hne]; simpl; auto.
  intros Hk. now rewrite IH.
Qed.

Lemma od_keys_app d d' : od_keys (d ++ d') = od_keys d ++ od_keys d'.
Proof. apply map_app. Qed.

Lemma NoDup_keys_filter keep d :
  NoDup (od_keys d) -> NoDup (od_keys (od_filter keep d)).
Proof. rewrite od_keys_filter. apply NoDup_filter. Qed.

Lemma NoDup_keys_snoc k v d :
  NoDup (od_keys d) -> od_mem k d = false -> NoDup (od_keys (d ++ [(k, v)])).
Proof.
  intros Hnd Hk. rewrite od_keys_app. simpl.
  apply NoDup_app; auto.
  - repeat constructor. simpl. tauto.
  - intros x Hx [<-|[]]. apply od_mem_false in Hk. auto.
Qed.

Lemma NoDup_keys_set k v d :
  NoDup (od_keys d) -> NoDup (od_keys (od_set k v d)).
Proof.
  intros Hnd. destruct (od_mem k d) eqn:E.
  - now rewrite od_keys_set_present.
  - rewrite od_set_absent by auto. now apply NoDup_keys_snoc.
Qed.

(** Removing the key of the first entry leaves the rest as it is. *)
Lemma od_remove_head k v d :
  NoDup (od_keys ((k, v) :: d)) -> od_remove k ((k, v) :: d) = d.
Proof.
  intros Hnd. inversion Hnd as [|? ? Hni Hnd']; subst.
  unfold od_remove. simpl. rewrite keqb_refl. simpl.
  apply (od_remove_absent k d). now apply od_mem_false.
Qed.

Lemma od_filter_length keep d :
  (List.length (od_filter keep d) <= List.length d)%nat.
Proof. apply filter_length_le. Qed.

Lemma od_remove_length k d :
  od_mem k d = true ->
  (List.length (od_remove k d) < List.length d)%nat.
Proof.
  unfold od_mem, od_remove.
  induction d as [|[k' v'] d IH]; simpl; [discriminate|].
  unfold keqb at 1. destruct (key_eq_dec k k') as [->|Hne]; simpl.
  - intros _. pose proof (filter_length_le (fun p => negb (keqb k' (fst p))) d).
    lia.
  - intros Hk. specialize (IH Hk). lia.
Qed.
End OrderedDictFacts.

(** ** Single operations *)

Section Lookups.
Context {K V : Type} `{EqKey K}.
Variable maxsize : Z.
Variable ttl : Z.
Variable timer : nat -> Z.
Variable getsizeof : V -> Z.

Abbreviation cache := (TTLCache K V).
Implicit Types (s : cache) (key : K).

Lemma set_tm_same s : set_timer (__timer s) s = s.
Proof. destruct s; reflexivity. Qed.

Lemma timer_call_top s :
  __nesting (__timer s) = 0 ->
  timer_call timer s =
    (Return (timer (ticks (__timer s))),
     set_timer {| ticks := S (ticks (__timer s)); __nesting := __nesting (__timer s);
               __time := __time (__timer s) |} s).
Proof.
  intros Hn. unfold timer_call, _Timer__call__. rewrite Hn. reflexivity.
Qed.

Lemma timer_call_in_scope now s :
  in_scope now s -> timer_call timer s = (Return now, s).
Proof.
  intros [Hn Ht]. unfold timer_call, _Timer__call__.
  replace (__nesting (__timer s) =? 0) with false by (symmetry; apply Z.eqb_neq; lia).
  rewrite Ht. now rewrite set_tm_same.
Qed.

(** What a read of the timer does to the rest of the state: nothing. *)
Lemma timer_call_frame s r s' :
  timer_call timer s = (r, s') ->
  __data s' = __data s /\ __expiry_info s' = __expiry_info s /\
  __order s' = __order s.
Proof.
  unfold timer_call. destruct (_Timer__call__ timer (__timer s)) as [r0 t].
  intros [= <- <-]. auto.
Qed.

Lemma contains_spec s key e now :
  od_get key (__expiry_info s) = Some e ->
  fst (timer_call timer s) = Return now ->
  fst (__contains__ (V := V) timer key s) = Return (now <=? e).
Proof.
  intros He Hnow. unfold __contains__, bind, try_KeyError, expiry_getitem.
  rewrite He. destruct (timer_call timer s) as [r s'] eqn:E.
  simpl in Hnow. subst r. reflexivity.
Qed.

Lemma getexpiry_present s key e :
  od_get key (__expiry_info s) = Some e ->
  od_mem key (__order s) = true ->
  __getexpiry (V := V) key s = (Return e, touch key s).
Proof.
  intros He Ho. unfold __getexpiry, bind, expiry_getitem, order_move_to_end.
  rewrite He. unfold od_move_to_end.
  destruct (od_mem_get _ _ Ho) as [[] Hu]. rewrite Hu. reflexivity.
Qed.

Lemma getexpiry_absent s key :
  od_get key (__expiry_info s) = None ->
  __getexpiry (V := V) key s = (Raise (KeyError key), s).
Proof.
  intros He. unfold __getexpiry, bind, expiry_getitem. now rewrite He.
Qed.

Lemma getitem_expired s key e now :
  od_get key (__expiry_info s) = Some e ->
  od_mem key (__order s) = true ->
  fst (timer_call timer s) = Return now ->
  e < now ->
  __getitem__ timer key s =
    (Raise (KeyError key), touch key (snd (timer_call timer s))).
Proof.
  intros He Ho Hnow Hlt. unfold __getitem__, bind at 1, try_KeyError.
  rewrite (getexpiry_present _ _ _ He Ho). unfold bind.
  unfold timer_call in *. simpl __timer.
  destruct (_Timer__call__ timer (__timer s)) as [r t]. simpl in Hnow. subst r.
  simpl. replace (e <? now) with true by (symmetry; apply Z.ltb_lt; lia).
  reflexivity.
Qed.

(** C10. A lookup [cache[key]] of a key whose recorded expiry time has
    passed raises the not-found error without purging anything: the
    bounded store and the expiry index are left as they were, and the
    expired key is moved to the most recently used end of the access
    order index. *)
Theorem getitem_expired_moves_to_end s key e now :
  od_get key (__expiry_info s) = Some e ->
  od_mem key (__order s) = true ->
  fst (timer_call timer s) = Return now ->
  e < now ->
  let s' := snd (__getitem__ timer key s) in
  fst (__getitem__ timer key s) = Raise (KeyError key) /\
  __data s' = __data s /\
  __expiry_info s' = __expiry_info s /\
  __order s' = od_remove key (__order s) ++ [(key, tt)].
Proof.
  intros He Ho Hnow Hlt. rewrite (getitem_expired _ _ _ _ He Ho Hnow Hlt). simpl.
  destruct (timer_call timer s) as [r s1] eqn:E.
  destruct (timer_call_frame _ _ _ E) as (Hd & Hx & Hor). simpl.
  rewrite Hor. auto.
Qed.

(** C4. Deleting a key that is present in the three structures and whose
    recorded expiry time has passed removes it from the bounded store,
    the access order index and the expiry index, leaving the other
    entries as they were, and then raises [KeyError(key)]: the error a
    delete of an absent key raises. *)
Theorem delitem_expired_removes_then_raises s key e now :
  od_mem key (__data s) = true ->
  od_mem key (__order s) = true ->
  od_get key (__expiry_info s) = Some e ->
  fst (timer_call timer s) = Return now ->
  e < now ->
  let s' := snd (__delitem__ timer key s) in
  fst (__delitem__ timer key s) = Raise (KeyError key) /\
  __data s' = od_remove key (__data s) /\
  __order s' = od_remove key (__order s) /\
  __expiry_info s' = od_remove key (__expiry_info s) /\
  od_mem key (__data s') = false /\
  od_mem key (__order s') = false /\
  od_mem key (__expiry_info s') = false /\
  forall s0 : cache, od_mem key (__data s0) = false ->
    __delitem__ timer key s0 = (Raise (KeyError key), s0).
Proof.
  intros Hd Ho He Hnow Hlt.
  assert (Habsent : forall s0 : cache, od_mem key (__data s0) = false ->
            __delitem__ timer key s0 = (Raise (KeyError key), s0)).
  { intros s0 H0. unfold __delitem__, bind, Cache__delitem__. now rewrite H0. }
  unfold __delitem__, bind, Cache__delitem__, order_delitem, expiry_pop.
  rewrite Hd. simpl. rewrite Ho. simpl. rewrite He.
  unfold timer_call in *. simpl __timer.
  destruct (_Timer__call__ timer (__timer s)) as [r t]. simpl in Hnow. subst r.
  replace (e <? now) with true by (symmetry; apply Z.ltb_lt; lia).
  simpl. rewrite !od_mem_remove_same. auto 10.
Qed.
End Lookups.

(** ** Subsets of a cache *)

Section Frames.
Context {K V : Type} `{EqKey K}.
Abbreviation cache := (TTLCache K V).
Implicit Types (s : cache) (key : K) (keep : K -> bool).

Lemma restrict_restrict keep keep' s :
  restrict keep (restrict keep' s) = restrict (fun x => keep' x && keep x) s.
Proof. unfold restrict. simpl. now rewrite !od_filter_filter. Qed.

Lemma restrict_ext keep keep' s :
  (forall k, keep k = keep' k) -> restrict keep s = restrict keep' s.
Proof.
  intros E. unfold restrict. f_equal; apply od_filter_ext; exact E.
Qed.

Lemma consistent_same s s' :
  __data s' = __data s -> __expiry_info s' = __expiry_info s ->
  __order s' = __order s ->
  consistent s -> consistent s'.
Proof.
  unfold consistent, unique_keys, lockstep. intros Hd He Ho.
  rewrite Hd, He, Ho. auto.
Qed.

Lemma shrinks_refl s : shrinks s s.
Proof.
  exists (fun _ => true). unfold od_filter.
  rewrite !filter_true. repeat split; auto.
Qed.

Lemma shrinks_same s s' :
  __data s' = __data s -> __expiry_info s' = __expiry_info s ->
  __order s' = __order s ->
  shrinks s s'.
Proof.
  intros Hd He Ho. destruct (shrinks_refl s) as (keep & ? & ? & ? & ?).
  exists keep. rewrite Hd, He, Ho. auto.
Qed.

Lemma shrinks_trans s s1 s2 : shrinks s s1 -> shrinks s1 s2 -> shrinks s s2.
Proof.
  intros (f & Hd & He & Ho & Hn) (g & Hd' & He' & Ho' & Hn').
  exists (fun x => f x && g x).
  rewrite Hd', He', Hd, He, !od_filter_filter. repeat split; auto.
  intros k. rewrite Ho', Ho. destruct (f k), (g k); reflexivity.
Qed.

Lemma restricted_shrinks s s' : restricted s s' -> shrinks s s'.
Proof.
  intros (f & Hd & He & Ho). exists f. rewrite Ho. repeat split; auto.
  - intros k. apply od_mem_filter.
  - apply NoDup_keys_filter.
Qed.

Lemma restricted_restrict keep s : restricted s (restrict keep s).
Proof. exists keep. auto. Qed.

Lemma restricted_trans s s1 s2 :
  restricted s s1 -> restricted s1 s2 -> restricted s s2.
Proof.
  intros (f & Hd & He & Ho) (g & Hd' & He' & Ho').
  exists (fun x => f x && g x).
  now rewrite Hd', He', Ho', Hd, He, Ho, !od_filter_filter.
Qed.

Lemma restricted_same s s1 s2 :
  restricted s s1 ->
  __data s2 = __data s1 -> __expiry_info s2 = __expiry_info s1 ->
  __order s2 = __order s1 ->
  restricted s s2.
Proof.
  intros (f & ? & ? & ?) Hd He Ho. exists f. rewrite Hd, He, Ho. auto.
Qed.

Lemma consistent_shrinks s s' : consistent s -> shrinks s s' -> consistent s'.
Proof.
  intros [(Nd & Ne & No) L] (f & Hd & He & Ho & Hn).
  split; [repeat split|].
  - rewrite Hd. now apply NoDup_keys_filter.
  - rewrite He. now apply NoDup_keys_filter.
  - auto.
  - intros k. destruct (L k) as [L1 L2].
    rewrite Hd, He, Ho, !od_mem_filter, L1, L2. auto.
Qed.

Lemma consistent_restrict keep s : consistent s -> consistent (restrict keep s).
Proof.
  intros C. eapply consistent_shrinks; eauto.
  apply restricted_shrinks, restricted_restrict.
Qed.

Lemma shrinks_touch s key :
  od_mem key (__order s) = true -> shrinks s (touch key s).
Proof.
  intros Ho. exists (fun _ => true). unfold od_filter.
  rewrite !filter_true. simpl. repeat split; auto.
  - intros k. rewrite od_mem_app, od_mem_remove, od_mem_single.
    destruct (keqb k key) eqn:E.
    + apply keqb_eq in E. subst k. rewrite keqb_refl, Ho. reflexivity.
    + replace (keqb key k) with false.
      * simpl. now rewrite orb_false_r.
      * symmetry. apply keqb_neq. apply keqb_neq in E. congruence.
  - intros Nd. apply NoDup_keys_snoc.
    + rewrite od_remove_filter. now apply NoDup_keys_filter.
    + apply od_mem_remove_same.
Qed.

Lemma sorted_filter (keep : K -> bool) (d : odict K Z) :
  StronglySorted Z.le (map snd d) ->
  StronglySorted Z.le (map snd (od_filter keep d)).
Proof.
  induction d as [|[k e] d IH]; simpl; auto.
  intros Hs. inversion Hs as [|? ? Hs' Hall]; subst.
  destruct (keep k); simpl; auto.
  constructor; auto.
  rewrite Forall_forall in *. intros x Hx. apply Hall.
  apply in_map_iff in Hx. destruct Hx as ([k' e'] & <- & Hin).
  apply filter_In in Hin. apply in_map_iff. exists (k', e'). tauto.
Qed.

Lemma sorted_snoc (d : odict K Z) (k : K) (e : Z) :
  StronglySorted Z.le (map snd d) ->
  (forall k' e', In (k', e') d -> e' <= e) ->
  StronglySorted Z.le (map snd (d ++ [(k, e)])).
Proof.
  induction d as [|[k0 e0] d IH]; simpl; intros Hs Hle.
  - repeat constructor.
  - inversion Hs as [|? ? Hs' Hall]; subst. constructor.
    + apply IH; auto. intros k' e' Hin. apply (Hle k'). auto.
    + rewrite map_app, Forall_app. split; auto.
      repeat constructor. apply (Hle k0). auto.
Qed.

Lemma sorted_shrinks s s' :
  shrinks s s' -> expiry_sorted s -> expiry_sorted s'.
Proof.
  intros (f & _ & He & _) Hs. unfold expiry_sorted. rewrite He.
  now apply sorted_filter.
Qed.

Lemma shrinks_In_expiry s s' k e :
  shrinks s s' -> In (k, e) (__expiry_info s') -> In (k, e) (__expiry_info s).
Proof.
  intros (f & _ & He & _). rewrite He. unfold od_filter.
  rewrite filter_In. tauto.
Qed.

Lemma without_touch s key : without key (touch key s) = without key s.
Proof.
  unfold without, restrict, touch. simpl. f_equal.
  rewrite od_filter_app. simpl. rewrite keqb_refl. simpl.
  rewrite app_nil_r. rewrite od_remove_filter, od_filter_filter.
  apply od_filter_ext. intros k. now destruct (keqb key k).
Qed.

Lemma without_length s key :
  od_mem key (__data s) = true ->
  (List.length (__data (without key s)) < List.length (__data s))%nat.
Proof. intros Hk. now apply od_remove_length. Qed.

Lemma purged_length now s :
  (List.length (__data (purged now s)) <= List.length (__data s))%nat.
Proof. apply od_filter_length. Qed.

(** In a sorted index the expired entries are exactly the front that
    [expire] removes. *)
Lemma expired_prefix_sorted (items : odict K Z) (now : Z) (k : K) :
  StronglySorted Z.le (map snd items) ->
  od_mem k (expired_prefix items now) =
  match od_get k items with Some e => e <? now | None => false end.
Proof.
  induction items as [|[k0 e0] items IH]; simpl; auto.
  intros Hs. inversion Hs as [|? ? Hs' Hall]; subst.
  destruct (Z.leb_spec now e0) as [Hle|Hlt].
  - unfold od_mem. simpl. destruct (key_eq_dec k k0).
    + symmetry. apply Z.ltb_ge. lia.
    + destruct (od_get k items) as [e|] eqn:E; auto.
      symmetry. apply Z.ltb_ge. apply od_get_In in E.
      rewrite Forall_forall in Hall.
      specialize (Hall e (in_map snd _ _ E)). lia.
  - unfold od_mem in *. simpl. destruct (key_eq_dec k k0).
    + symmetry. apply Z.ltb_lt. lia.
    + now apply IH.
Qed.
End Frames.

(** ** The operations inside a snapshot scope *)

Section Scoped.
Context {K V : Type} `{EqKey K}.
Variable maxsize : Z.
Variable ttl : Z.
Variable timer : nat -> Z.
Variable getsizeof : V -> Z.

Abbreviation cache := (TTLCache K V).
Implicit Types (s : cache) (key : K) (now : Z).

Lemma in_scope_same now s s' : __timer s' = __timer s -> in_scope now s -> in_scope now s'.
Proof. unfold in_scope. intros ->. auto. Qed.

Lemma with_timer_ok (A : Type) (body : Z -> M A) s :
  timer_ok (__timer s) ->
  exists now,
    snapshot timer s = Some now /\
    in_scope now (entered timer s) /\
    with_timer timer body s =
      (let (r, s') := body now (entered timer s) in (r, exited s')).
Proof.
  intros [Hn Ht]. unfold snapshot, entered, with_timer, _Timer__enter__, in_scope.
  destruct (Z.eqb_spec (__nesting (__timer s)) 0) as [E|E].
  - exists (timer (ticks (__timer s))). simpl. rewrite E. repeat split; auto; lia.
  - destruct (__time (__timer s)) as [now|] eqn:Et; [|destruct Ht; congruence].
    exists now. simpl. repeat split; auto; lia.
Qed.

Lemma exited_entered_in_scope now s : in_scope now s -> exited (entered timer s) = s.
Proof.
  intros [Hn Ht]. destruct s as [d e o [k n t]]. simpl in *. subst t.
  unfold exited, entered, _Timer__enter__, _Timer__exit__, set_timer. simpl.
  destruct (Z.eqb_spec n 0) as [E|E]; [lia|]. simpl.
  replace (n + 1 - 1) with n by lia. reflexivity.
Qed.

Lemma snapshot_in_scope now s : in_scope now s -> snapshot timer s = Some now.
Proof.
  intros [Hn Ht]. unfold snapshot.
  destruct (Z.eqb_spec (__nesting (__timer s)) 0); [lia | auto].
Qed.

Lemma timer_ok_exited_entered s :
  timer_ok (__timer s) -> timer_ok (__timer (exited (entered timer s))).
Proof.
  intros [Hn Ht]. unfold exited, entered, _Timer__enter__, _Timer__exit__, timer_ok.
  destruct (Z.eqb_spec (__nesting (__timer s)) 0) as [E|E]; simpl.
  - rewrite E. split; [lia | left; lia].
  - destruct (__time (__timer s)) eqn:Et; simpl; [|destruct Ht; congruence].
    split; [lia | right; congruence].
Qed.

(** *** [expire] *)

Lemma expire_loop_spec now (items : odict K Z) :
  forall s, consistent s -> __expiry_info s = items ->
  expire_loop (V := V) items now s = (Return tt, purged now s).
Proof.
  induction items as [|[k e] items IH]; intros s C E.
  - simpl. unfold ret, purged. rewrite E. simpl. f_equal.
    destruct s as [d x o t]. unfold restrict, od_filter. simpl.
    now rewrite !filter_true.
  - simpl. unfold purged. rewrite E. simpl.
    destruct (Z.leb_spec now e) as [Hle|Hlt].
    + unfold ret. f_equal. destruct s as [d x o t].
      unfold restrict, od_filter. simpl. now rewrite !filter_true.
    + pose proof C as C0. destruct C as [(Nd & Ne & No) L].
      assert (Hx : od_mem k (__expiry_info s) = true).
      { rewrite E. unfold od_mem. simpl. destruct (key_eq_dec k k); congruence. }
      destruct (L k) as [L1 L2].
      assert (Ho : od_mem k (__order s) = true) by congruence.
      assert (Hd : od_mem k (__data s) = true) by congruence.
      unfold bind at 1, Cache__delitem__. rewrite Hd.
      unfold bind at 1, expiry_delitem. simpl. rewrite Hx.
      unfold bind at 1, order_delitem. simpl. rewrite Ho.
      set (s1 := set_order _ _).
      assert (Es1 : s1 = without k s) by reflexivity.
      assert (C1 : consistent s1).
      { rewrite Es1. now apply consistent_restrict. }
      assert (E1 : __expiry_info s1 = items).
      { rewrite Es1. simpl. rewrite E. apply (od_remove_head k e).
        now rewrite <- E. }
      rewrite (IH s1 C1 E1). f_equal. rewrite Es1. unfold purged, without.
      rewrite restrict_restrict. apply restrict_ext. intros k'.
      change (__expiry_info (restrict (fun k0 => negb (keqb k k0)) s)) with
        (od_remove k (__expiry_info s)).
      rewrite E, (od_remove_head k e) by now rewrite <- E.
      unfold od_mem, keqb. simpl.
      destruct (key_eq_dec k k') as [Ek|Hne];
        destruct (key_eq_dec k' k) as [E'|Hne']; try congruence; auto.
Qed.

Lemma expire_some now s :
  consistent s -> expire timer (Some now) s = (Return tt, purged now s).
Proof.
  intros C. unfold expire, bind, ret, get_self. now apply expire_loop_spec.
Qed.

(** After a purge of a sorted index every entry left is live. *)
Lemma purged_live now s k e :
  expiry_sorted s ->
  od_get k (__expiry_info (purged now s)) = Some e -> now <= e.
Proof.
  intros Hs. unfold purged. simpl. rewrite od_get_filter.
  rewrite expired_prefix_sorted by exact Hs.
  destruct (od_get k (__expiry_info s)) as [e'|]; simpl; [|discriminate].
  destruct (Z.ltb_spec e' now); simpl; [discriminate|]. intros [= <-]. lia.
Qed.
(** *** Lookup, delete and pop *)

Lemma lockstep_get_data s key e :
  consistent s -> od_get key (__expiry_info s) = Some e ->
  od_mem key (__order s) = true /\ exists v, od_get key (__data s) = Some v.
Proof.
  intros [_ L] He. destruct (L key) as [L1 L2].
  apply od_get_mem in He. split; [congruence|].
  apply od_mem_get. congruence.
Qed.

Lemma lockstep_absent s key :
  consistent s -> od_get key (__expiry_info s) = None ->
  od_mem key (__order s) = false /\ od_get key (__data s) = None.
Proof.
  intros [_ L] He. destruct (L key) as [L1 L2].
  assert (Hx : od_mem key (__expiry_info s) = false) by (unfold od_mem; now rewrite He).
  split; [congruence|].
  assert (Hd : od_mem key (__data s) = false) by congruence.
  unfold od_mem in Hd. destruct (od_get key (__data s)); congruence.
Qed.

Lemma getitem_in_scope now s key r s' :
  consistent s -> in_scope now s ->
  __getitem__ timer key s = (r, s') ->
  __timer s' = __timer s /\
  match r with
  | Return v =>
      exists e, od_get key (__expiry_info s) = Some e /\ now <= e /\
                od_get key (__data s) = Some v /\ s' = touch key s
  | Raise x =>
      x = KeyError key /\ shrinks s s' /\
      (forall e, od_get key (__expiry_info s) = Some e -> e < now)
  end.
Proof.
  intros C Sc. unfold __getitem__, bind at 1, try_KeyError.
  destruct (od_get key (__expiry_info s)) as [e|] eqn:He.
  - destruct (lockstep_get_data _ _ _ C He) as [Ho [v Hv]].
    rewrite (getexpiry_present _ _ _ He Ho). unfold bind at 1.
    unfold bind at 1.
    rewrite (timer_call_in_scope timer now (touch key s)) by exact Sc.
    unfold ret. destruct (Z.ltb_spec e now) as [Hlt|Hge].
    + unfold Cache__missing__, raise. intros [= <- <-]. split; auto.
      repeat split; auto using shrinks_touch. intros e' [= <-]. auto.
    + unfold Cache__getitem__. simpl. rewrite Hv. intros [= <- <-].
      split; auto. exists e. auto.
  - rewrite (getexpiry_absent _ _ He). unfold bind, ret.
    destruct (lockstep_absent _ _ C He) as [Ho Hd].
    unfold Cache__getitem__. rewrite Hd. unfold Cache__missing__, raise.
    intros [= <- <-]. split; auto. repeat split; auto using shrinks_refl.
    discriminate.
Qed.

Lemma delitem_in_scope now s key :
  consistent s -> in_scope now s ->
  __delitem__ timer key s =
  match od_get key (__expiry_info s) with
  | None => (Raise (KeyError key), s)
  | Some e =>
      (if e <? now then Raise (KeyError key) else Return tt, without key s)
  end.
Proof.
  intros C Sc. unfold __delitem__, bind at 1, Cache__delitem__.
  destruct (od_get key (__expiry_info s)) as [e|] eqn:He.
  - destruct (lockstep_get_data _ _ _ C He) as [Ho [v Hv]].
    rewrite (od_get_mem _ _ _ Hv). unfold bind at 1, order_delitem. simpl.
    rewrite Ho. unfold bind at 1, expiry_pop. simpl. rewrite He.
    unfold bind.
    rewrite (timer_call_in_scope timer now) by exact Sc.
    destruct (e <? now); reflexivity.
  - destruct (lockstep_absent _ _ C He) as [Ho Hd].
    unfold od_mem. now rewrite Hd.
Qed.

Lemma Cache_pop_spec now s key r s' :
  consistent s -> in_scope now s ->
  Cache_pop (__getitem__ timer) (__delitem__ timer) key s = (r, s') ->
  __timer s' = __timer s /\
  match r with
  | Return v =>
      exists e, od_get key (__expiry_info s) = Some e /\ now <= e /\
                od_get key (__data s) = Some v /\ s' = without key s
  | Raise x =>
      x = KeyError key /\ shrinks s s' /\
      (forall e, od_get key (__expiry_info s) = Some e -> e < now)
  end.
Proof.
  intros C Sc. unfold Cache_pop, bind at 1.
  destruct (__getitem__ timer key s) as [[v|x] s1] eqn:G;
    destruct (getitem_in_scope _ _ _ _ _ C Sc G) as [Ht R].
  - destruct R as (e & He & Hle & Hv & ->).
    assert (C2 : consistent (touch key s)).
    { eapply consistent_shrinks; eauto. apply shrinks_touch.
      now destruct (lockstep_get_data _ _ _ C He). }
    unfold bind at 1. rewrite (delitem_in_scope now _ key C2 Sc).
    change (__expiry_info (touch key s)) with (__expiry_info s). rewrite He.
    replace (e <? now) with false by (symmetry; apply Z.ltb_ge; lia).
    unfold ret. intros [= <- <-]. rewrite without_touch.
    split; auto. exists e. auto.
  - destruct R as (-> & Sh & Hex). intros [= <- <-]. auto.
Qed.

(** *** Blocks under [with self.__timer] *)

Lemma with_timer_spec (A : Type) (body : Z -> M A) now s r s' :
  timer_ok (__timer s) -> snapshot timer s = Some now ->
  with_timer timer body s = (r, s') ->
  exists s1,
    in_scope now (entered timer s) /\
    body now (entered timer s) = (r, s1) /\
    s' = exited s1.
Proof.
  intros Tok Hsnap. destruct (with_timer_ok A body s Tok) as (now' & Hs & Sc & ->).
  rewrite Hsnap in Hs. injection Hs as <-.
  destruct (body now (entered timer s)) as [r1 s1]. intros [= <- <-].
  exists s1. auto.
Qed.

Lemma in_scope_timer_ok now s : in_scope now s -> timer_ok (__timer s).
Proof. intros [Hn Ht]. split; [lia | right; congruence]. Qed.

Lemma pop_spec now s key r s' :
  consistent s -> timer_ok (__timer s) -> snapshot timer s = Some now ->
  pop timer key s = (r, s') ->
  let s0 := exited (entered timer s) in
  __timer s' = __timer s0 /\
  match r with
  | Return v =>
      exists e, od_get key (__expiry_info s0) = Some e /\ now <= e /\
                od_get key (__data s0) = Some v /\ s' = without key s0
  | Raise x =>
      x = KeyError key /\ shrinks s0 s' /\
      (forall e, od_get key (__expiry_info s0) = Some e -> e < now)
  end.
Proof.
  intros C Tok Hsnap P. unfold pop in P.
  destruct (with_timer_spec _ _ now s r s' Tok Hsnap P) as (s1 & Sc & B & ->).
  assert (C1 : consistent (entered timer s)) by exact C.
  destruct (Cache_pop_spec now _ _ _ _ C1 Sc B) as [Ht R].
  split; [simpl; now rewrite Ht|].
  destruct r as [v|x].
  - destruct R as (e & He & Hle & Hv & ->). exists e. auto.
  - destruct R as (-> & Sh & Hex). auto.
Qed.

Lemma pop_in_scope now s key r s' :
  consistent s -> in_scope now s ->
  pop timer key s = (r, s') ->
  __timer s' = __timer s /\
  match r with
  | Return v =>
      exists e, od_get key (__expiry_info s) = Some e /\ now <= e /\
                od_get key (__data s) = Some v /\ s' = without key s
  | Raise x =>
      x = KeyError key /\ shrinks s s' /\
      (forall e, od_get key (__expiry_info s) = Some e -> e < now)
  end.
Proof.
  intros C Sc P.
  pose proof (pop_spec now s key r s' C (in_scope_timer_ok _ _ Sc)
                (snapshot_in_scope _ _ Sc) P) as R.
  cbv zeta in R. rewrite (exited_entered_in_scope now s Sc) in R. exact R.
Qed.

(** *** [popitem] *)

Lemma popitem_with_spec now s r s' :
  consistent s -> in_scope now s ->
  popitem_with timer now s = (r, s') ->
  __timer s' = __timer s /\
  match r with
  | Return (k, v) =>
      (exists rest, __order (purged now s) = (k, tt) :: rest) /\
      od_get k (__data (purged now s)) = Some v /\
      s' = without k (purged now s)
  | Raise x =>
      shrinks s s' /\
      ((x = KeyError_empty /\ __order (purged now s) = [] /\ s' = purged now s) \/
       (exists k e, x = KeyError k /\
                    od_get k (__expiry_info (purged now s)) = Some e /\ e < now))
  end.
Proof.
  intros C Sc. unfold popitem_with, bind at 1. rewrite (expire_some now s C).
  assert (Cp : consistent (purged now s)) by now apply consistent_restrict.
  assert (Scp : in_scope now (purged now s)) by exact Sc.
  assert (Shp : shrinks s (purged now s))
    by apply restricted_shrinks, restricted_restrict.
  unfold bind at 1, get_self.
  destruct (__order (purged now s)) as [|[k []] rest] eqn:Ho.
  - unfold raise. intros [= <- <-]. split; auto.
  - unfold bind. destruct (pop timer k (purged now s)) as [[v|x] s1] eqn:P;
      destruct (pop_in_scope now _ _ _ _ Cp Scp P) as [Ht R].
    + destruct R as (e & He & Hle & Hv & ->). unfold ret. intros [= <- <-].
      split; auto. repeat split; eauto.
    + destruct R as (-> & Sh & Hex). intros [= <- <-]. split; auto.
      split; [eapply shrinks_trans; eauto|]. right.
      assert (Hk : od_mem k (__order (purged now s)) = true).
      { rewrite Ho. unfold od_mem. simpl. destruct (key_eq_dec k k); congruence. }
      destruct Cp as [_ L]. destruct (L k) as [_ L2]. rewrite L2 in Hk.
      destruct (od_mem_get _ _ Hk) as [e He]. exists k, e. auto.
Qed.

Lemma popitem_spec now s r s' :
  consistent s -> timer_ok (__timer s) -> snapshot timer s = Some now ->
  popitem timer s = (r, s') ->
  let s0 := exited (entered timer s) in
  __timer s' = __timer s0 /\
  match r with
  | Return (k, v) =>
      (exists rest, __order (purged now s0) = (k, tt) :: rest) /\
      od_get k (__data (purged now s0)) = Some v /\
      s' = without k (purged now s0)
  | Raise x =>
      shrinks s0 s' /\
      ((x = KeyError_empty /\ __order (purged now s0) = [] /\ s' = purged now s0) \/
       (exists k e, x = KeyError k /\
                    od_get k (__expiry_info (purged now s0)) = Some e /\ e < now))
  end.
Proof.
  intros C Tok Hsnap P. unfold popitem in P.
  destruct (with_timer_spec _ _ now s r s' Tok Hsnap P) as (s1 & Sc & B & ->).
  assert (C1 : consistent (entered timer s)) by exact C.
  destruct (popitem_with_spec now _ _ _ C1 Sc B) as [Ht R].
  split; [simpl; now rewrite Ht|].
  destruct r as [[k v]|x].
  - destruct R as (Ho & Hv & ->). repeat split; auto.
  - destruct R as (Sh & [(-> & Ho & ->)|(k & e & -> & He & Hlt)]).
    + split; [exact Sh|]. left. auto.
    + split; [exact Sh|]. right. exists k, e. auto.
Qed.

Lemma popitem_in_scope now s r s' :
  consistent s -> in_scope now s ->
  popitem timer s = (r, s') ->
  __timer s' = __timer s /\
  match r with
  | Return (k, v) =>
      (exists rest, __order (purged now s) = (k, tt) :: rest) /\
      od_get k (__data (purged now s)) = Some v /\
      s' = without k (purged now s)
  | Raise x =>
      shrinks s s' /\
      ((x = KeyError_empty /\ __order (purged now s) = [] /\ s' = purged now s) \/
       (exists k e, x = KeyError k /\
                    od_get k (__expiry_info (purged now s)) = Some e /\ e < now))
  end.
Proof.
  intros C Sc P.
  pose proof (popitem_spec now s r s' C (in_scope_timer_ok _ _ Sc)
                (snapshot_in_scope _ _ Sc) P) as R.
  cbv zeta in R. rewrite (exited_entered_in_scope now s Sc) in R. exact R.
Qed.
(** *** The store's [set] and [TTLCache.__setitem__] *)

Lemma popitem_shrinks_data now s k v :
  od_get k (__data (purged now s)) = Some v ->
  (List.length (__data (without k (purged now s))) < List.length (__data s))%nat.
Proof.
  intros Hv. apply od_get_mem in Hv.
  pose proof (without_length (purged now s) k Hv).
  pose proof (purged_length (V := V) now s). lia.
Qed.

Lemma evict_spec now key size :
  forall (fuel : nat) s r s',
    consistent s -> in_scope now s ->
    Cache_evict maxsize getsizeof fuel (popitem timer) key size s = (r, s') ->
    __timer s' = __timer s /\ shrinks s s' /\
    match r with
    | Return _ => restricted s s'
    | Raise x => x = OutOfFuel -> (fuel <= List.length (__data s))%nat
    end.
Proof.
  induction fuel as [|fuel IH]; intros s r s' C Sc; simpl;
    destruct (over_budget maxsize getsizeof key size s).
  - intros [= <- <-]. repeat split; auto using shrinks_refl. intros _. lia.
  - intros [= <- <-]. repeat split; auto using shrinks_refl.
    apply (restricted_trans s s s); exists (fun _ => true); unfold od_filter;
      now rewrite !filter_true.
  - unfold bind. destruct (popitem timer s) as [[[k v]|x] s1] eqn:P;
      destruct (popitem_in_scope now _ _ _ C Sc P) as [Ht R].
    + destruct R as (Ho & Hv & ->). intros E.
      assert (C1 : consistent (without k (purged now s)))
        by (do 2 apply consistent_restrict; exact C).
      destruct (IH _ _ _ C1 Sc E) as (Ht' & Sh & R).
      assert (Rs : restricted s (without k (purged now s))).
      { eapply restricted_trans; apply restricted_restrict. }
      split; auto. split.
      * eapply shrinks_trans; [apply restricted_shrinks, Rs | exact Sh].
      * destruct r as [u|x].
        -- eapply restricted_trans; eauto.
        -- intros Ex. specialize (R Ex).
           pose proof (popitem_shrinks_data now s k v Hv). lia.
    + intros [= <- <-]. destruct R as (Sh & R). repeat split; auto.
      intros ->. destruct R as [(? & _)|(? & ? & ? & _)]; discriminate.
  - intros [= <- <-]. repeat split; auto using shrinks_refl.
    exists (fun _ => true); unfold od_filter; now rewrite !filter_true.
Qed.

Lemma Cache_setitem_spec now key value s r s' :
  consistent s -> in_scope now s ->
  Cache__setitem__ maxsize getsizeof (popitem timer) key value s = (r, s') ->
  __timer s' = __timer s /\
  match r with
  | Return _ =>
      exists s1, restricted s s1 /\
        __data s' = od_set key value (__data s1) /\
        __expiry_info s' = __expiry_info s1 /\
        __order s' = __order s1
  | Raise x => shrinks s s' /\ x <> OutOfFuel
  end.
Proof.
  intros C Sc. unfold Cache__setitem__.
  destruct (maxsize <? getsizeof value).
  - unfold raise. intros [= <- <-]. repeat split; auto using shrinks_refl.
    discriminate.
  - unfold bind at 1, get_self. unfold bind.
    destruct (Cache_evict maxsize getsizeof (S (List.length (__data s)))
                (popitem timer) key (getsizeof value) s) as [[u|x] s1] eqn:E;
      destruct (evict_spec now _ _ _ _ _ _ C Sc E) as (Ht & Sh & R).
    + intros [= <- <-]. split; auto. exists s1. auto.
    + intros [= <- <-]. repeat split; auto. intros Ex. specialize (R Ex). lia.
Qed.

Lemma setitem_with_spec now key value s r s' :
  consistent s -> in_scope now s ->
  setitem_with maxsize ttl timer getsizeof key value now s = (r, s') ->
  __timer s' = __timer s /\
  match r with
  | Return _ =>
      exists s1, restricted s s1 /\
        __data s' = od_set key value (__data s1) /\
        __expiry_info s' = od_remove key (__expiry_info s1) ++ [(key, now + ttl)] /\
        __order s' = od_remove key (__order s1) ++ [(key, tt)]
  | Raise x => shrinks s s' /\ x <> OutOfFuel
  end.
Proof.
  intros C Sc. unfold setitem_with, bind at 1. rewrite (expire_some now s C).
  assert (Cp : consistent (purged now s)) by now apply consistent_restrict.
  assert (Scp : in_scope now (purged now s)) by exact Sc.
  unfold bind at 1.
  destruct (Cache__setitem__ maxsize getsizeof (popitem timer) key value
              (purged now s)) as [[u|x] s2] eqn:E;
    destruct (Cache_setitem_spec now _ _ _ _ _ Cp Scp E) as (Ht & R).
  - destruct R as (s1 & Rs & Hd & He & Ho).
    assert (C1 : consistent s1).
    { eapply consistent_shrinks; [exact Cp | now apply restricted_shrinks]. }
    assert (Rs' : restricted s s1).
    { eapply restricted_trans; [apply restricted_restrict | exact Rs]. }
    unfold bind at 1, try_KeyError.
    destruct (od_get key (__expiry_info s1)) as [e|] eqn:Hx.
    + destruct (lockstep_get_data _ _ _ C1 Hx) as [Hko _].
      rewrite (getexpiry_present s2 key e) by congruence.
      unfold bind, expiry_delitem, expiry_setitem. simpl.
      rewrite He, (od_get_mem _ _ _ Hx). simpl. intros [= <- <-].
      split; auto. exists s1. simpl. rewrite Ho. repeat split; auto.
      apply od_set_absent, od_mem_remove_same.
    + destruct (lockstep_absent _ _ C1 Hx) as [Hko _].
      rewrite (getexpiry_absent s2 key) by congruence.
      unfold bind, order_setitem, expiry_setitem. simpl. intros [= <- <-].
      split; auto. exists s1. simpl. rewrite He, Ho.
      assert (Hkx : od_mem key (__expiry_info s1) = false)
        by (unfold od_mem; now rewrite Hx).
      rewrite (od_remove_absent key (__order s1) Hko),
        (od_remove_absent key (__expiry_info s1) Hkx),
        (od_set_absent key tt (__order s1) Hko),
        (od_set_absent key (now + ttl) (__expiry_info s1) Hkx). auto.
  - destruct R as (Sh & Hx). intros [= <- <-]. repeat split; auto.
    eapply shrinks_trans; [apply restricted_shrinks, restricted_restrict | exact Sh].
Qed.

(** A write leaves the three structures with the same, unique keys. *)
Lemma consistent_written s1 s' key value e :
  consistent s1 ->
  __data s' = od_set key value (__data s1) ->
  __expiry_info s' = od_remove key (__expiry_info s1) ++ [(key, e)] ->
  __order s' = od_remove key (__order s1) ++ [(key, tt)] ->
  consistent s'.
Proof.
  intros [(Nd & Ne & No) L] Hd He Ho. split; [repeat split|].
  - rewrite Hd. now apply NoDup_keys_set.
  - rewrite He. apply NoDup_keys_snoc; [|apply od_mem_remove_same].
    rewrite od_remove_filter. now apply NoDup_keys_filter.
  - rewrite Ho. apply NoDup_keys_snoc; [|apply od_mem_remove_same].
    rewrite od_remove_filter. now apply NoDup_keys_filter.
  - intros k. destruct (L k) as [L1 L2].
    rewrite Hd, He, Ho, od_mem_set, !od_mem_app, !od_mem_remove, !od_mem_single.
    rewrite L1, L2. unfold keqb.
    destruct (key_eq_dec k key); destruct (key_eq_dec key k); try congruence;
      simpl; rewrite ?orb_true_r, ?orb_false_r; auto.
Qed.
Lemma setitem_spec now key value s r s' :
  consistent s -> timer_ok (__timer s) -> snapshot timer s = Some now ->
  __setitem__ maxsize ttl timer getsizeof key value s = (r, s') ->
  __timer s' = __timer (exited (entered timer s)) /\
  match r with
  | Return _ =>
      exists s1, restricted s s1 /\
        __data s' = od_set key value (__data s1) /\
        __expiry_info s' = od_remove key (__expiry_info s1) ++ [(key, now + ttl)] /\
        __order s' = od_remove key (__order s1) ++ [(key, tt)]
  | Raise x => shrinks s s' /\ x <> OutOfFuel
  end.
Proof.
  intros C Tok Hsnap P. unfold __setitem__ in P.
  destruct (with_timer_spec _ _ now s r s' Tok Hsnap P) as (s1 & Sc & B & ->).
  assert (C1 : consistent (entered timer s)) by exact C.
  destruct (setitem_with_spec now _ _ _ _ _ C1 Sc B) as [Ht R].
  split; [simpl; now rewrite Ht|].
  destruct r as [u|x]; exact R.
Qed.

(** *** [clear] *)

Lemma Cache_clear_spec now :
  forall (fuel : nat) s r s',
    consistent s -> in_scope now s ->
    Cache_clear fuel (popitem timer) s = (r, s') ->
    __timer s' = __timer s /\ shrinks s s'.
Proof.
  induction fuel as [|fuel IH]; intros s r s' C Sc; simpl.
  - intros [= <- <-]. auto using shrinks_refl.
  - destruct (popitem timer s) as [[[k v]|x] s1] eqn:P;
      destruct (popitem_in_scope now _ _ _ C Sc P) as [Ht R].
    + destruct R as (Ho & Hv & ->). intros E.
      assert (C1 : consistent (without k (purged now s)))
        by (do 2 apply consistent_restrict; exact C).
      destruct (IH _ _ _ C1 Sc E) as (Ht' & Sh). split; auto.
      eapply shrinks_trans; [|exact Sh]. apply restricted_shrinks.
      eapply restricted_trans; apply restricted_restrict.
    + destruct R as (Sh & _). destruct x; intros [= <- <-]; auto.
Qed.

Lemma clear_spec s r s' :
  consistent s -> timer_ok (__timer s) ->
  clear timer s = (r, s') ->
  __timer s' = __timer (exited (entered timer s)) /\ shrinks s s'.
Proof.
  intros C Tok P. destruct (with_timer_ok unit (clear_with timer) s Tok)
    as (now & Hsnap & Sc & E).
  unfold clear in P. rewrite E in P. clear E.
  assert (C1 : consistent (entered timer s)) by exact C.
  unfold clear_with, bind at 1 in P. rewrite (expire_some now _ C1) in P.
  unfold bind, get_self in P.
  assert (Cp : consistent (purged now (entered timer s)))
    by now apply consistent_restrict.
  destruct (Cache_clear _ _ _) as [r1 s1] eqn:E.
  destruct (Cache_clear_spec now _ _ _ _ Cp Sc E) as (Ht & Sh).
  injection P as <- <-. simpl. rewrite Ht. split; auto.
  apply (shrinks_trans s (purged now (entered timer s))); [|exact Sh].
  apply restricted_shrinks. exists
    (fun k => negb (od_mem k (expired_prefix (__expiry_info s) now))). auto.
Qed.

(** *** Operations that only read the timer *)

Lemma timer_advances_refl (t : _Timer) : timer_ok t -> timer_advances t t.
Proof. intros Tok. repeat split; auto; apply Tok. Qed.

Lemma timer_call_ok s :
  timer_ok (__timer s) ->
  exists now t',
    timer_call timer s = (Return now, set_timer t' s) /\
    timer_advances (__timer s) t'.
Proof.
  intros [Hn Ht]. unfold timer_call, _Timer__call__.
  destruct (Z.eqb_spec (__nesting (__timer s)) 0) as [E|E].
  - eexists _, _. split; [reflexivity|]. repeat split; simpl; auto; lia.
  - destruct (__time (__timer s)) as [x|] eqn:Et; [|destruct Ht; congruence].
    exists x, (__timer s). split; auto. repeat split; auto. right. congruence.
Qed.

Lemma timer_advances_scope s :
  timer_ok (__timer s) -> timer_advances (__timer s) (__timer (exited (entered timer s))).
Proof.
  intros Tok. split; [|split; [|now apply timer_ok_exited_entered]].
  - destruct Tok as [Hn Ht].
    unfold exited, entered, _Timer__enter__, _Timer__exit__. simpl.
    destruct (Z.eqb_spec (__nesting (__timer s)) 0) as [E|E]; simpl; [lia|].
    destruct (__time (__timer s)); simpl; [lia | destruct Ht; congruence].
  - unfold exited, entered, _Timer__enter__, _Timer__exit__. simpl.
    destruct (__nesting (__timer s) =? 0); simpl; [lia|].
    destruct (__time (__timer s)); simpl; lia.
Qed.

Lemma getitem_effect s key r s' :
  consistent s -> timer_ok (__timer s) ->
  __getitem__ timer key s = (r, s') ->
  shrinks s s' /\ timer_advances (__timer s) (__timer s').
Proof.
  intros C Tok. unfold __getitem__, bind at 1, try_KeyError.
  destruct (od_get key (__expiry_info s)) as [e|] eqn:He.
  - destruct (lockstep_get_data _ _ _ C He) as [Ho [v Hv]].
    rewrite (getexpiry_present _ _ _ He Ho). unfold bind at 1.
    unfold bind at 1.
    destruct (timer_call_ok (touch key s) Tok) as (now & t' & -> & Adv).
    unfold ret.
    assert (Sh : shrinks s (set_timer t' (touch key s))) by (now apply shrinks_touch).
    destruct (e <? now).
    + unfold Cache__missing__, raise. intros [= <- <-]. auto.
    + unfold Cache__getitem__. simpl. rewrite Hv. intros [= <- <-]. auto.
  - rewrite (getexpiry_absent _ _ He). unfold bind, ret.
    destruct (lockstep_absent _ _ C He) as [Ho Hd].
    unfold Cache__getitem__. rewrite Hd. unfold Cache__missing__, raise.
    intros [= <- <-]. auto using shrinks_refl, timer_advances_refl.
Qed.

Lemma delitem_effect s key r s' :
  consistent s -> timer_ok (__timer s) ->
  __delitem__ timer key s = (r, s') ->
  shrinks s s' /\ timer_advances (__timer s) (__timer s').
Proof.
  intros C Tok. unfold __delitem__, bind at 1, Cache__delitem__.
  destruct (od_get key (__expiry_info s)) as [e|] eqn:He.
  - destruct (lockstep_get_data _ _ _ C He) as [Ho [v Hv]].
    rewrite (od_get_mem _ _ _ Hv). unfold bind at 1, order_delitem. simpl.
    rewrite Ho. unfold bind at 1, expiry_pop. simpl. rewrite He.
    unfold bind.
    destruct (timer_call_ok (without key s) Tok) as (now & t' & E & Adv).
    change (set_expiry_info _ _) with (without key s). rewrite E.
    assert (Sh : shrinks s (set_timer t' (without key s))).
    { apply restricted_shrinks. exists (fun k => negb (keqb key k)). auto. }
    destruct (e <? now); intros [= <- <-]; auto.
  - destruct (lockstep_absent _ _ C He) as [Ho Hd].
    unfold od_mem. rewrite Hd. intros [= <- <-].
    auto using shrinks_refl, timer_advances_refl.
Qed.

Lemma contains_effect s key r s' :
  timer_ok (__timer s) ->
  __contains__ (V := V) timer key s = (r, s') ->
  shrinks s s' /\ timer_advances (__timer s) (__timer s').
Proof.
  intros Tok. unfold __contains__, bind, try_KeyError, expiry_getitem.
  destruct (od_get key (__expiry_info s)).
  - destruct (timer_call_ok s Tok) as (now & t' & -> & Adv).
    intros [= <- <-]. split; auto. now apply shrinks_same.
  - intros [= <- <-]. auto using shrinks_refl, timer_advances_refl.
Qed.

Lemma len_effect s r s' :
  timer_ok (__timer s) ->
  __len__ (V := V) timer s = (r, s') ->
  shrinks s s' /\ timer_advances (__timer s) (__timer s').
Proof.
  intros Tok. unfold __len__, bind.
  destruct (timer_call_ok s Tok) as (now & t' & -> & Adv).
  intros [= <- <-]. split; auto. now apply shrinks_same.
Qed.

Lemma expire_effect s time r s' :
  consistent s -> timer_ok (__timer s) ->
  expire timer time s = (r, s') ->
  shrinks s s' /\ timer_advances (__timer s) (__timer s').
Proof.
  intros C Tok. destruct time as [now|].
  - rewrite (expire_some now s C). intros [= <- <-]. split.
    + apply restricted_shrinks, restricted_restrict.
    + now apply timer_advances_refl.
  - unfold expire, bind at 1.
    destruct (timer_call_ok s Tok) as (now & t' & -> & Adv).
    unfold bind, get_self.
    assert (C1 : consistent (set_timer t' s)) by exact C.
    rewrite (expire_loop_spec now _ _ C1 eq_refl). intros [= <- <-].
    split; auto.
    apply restricted_shrinks. exists
      (fun k => negb (od_mem k (expired_prefix (__expiry_info s) now))). auto.
Qed.
End Scoped.

(** ** The invariants of the cache *)

Section Reachable.
Context {K V : Type} `{EqKey K}.
Variable maxsize : Z.
Variable ttl : Z.
Variable timer : nat -> Z.
Variable getsizeof : V -> Z.

Abbreviation cache := (TTLCache K V).
Abbreviation exec' := (exec maxsize ttl timer getsizeof).
Abbreviation reachable' := (reachable maxsize ttl timer getsizeof).
Implicit Types (s : cache) (key : K) (now : Z) (o : op (K := K) (V := V)).

Lemma snapshot_ok s : timer_ok (__timer s) -> exists now, snapshot timer s = Some now.
Proof.
  intros [Hn Ht]. unfold snapshot. destruct (__nesting (__timer s) =? 0) eqn:E; eauto.
  destruct (__time (__timer s)); eauto. destruct Ht; [|congruence].
  apply Z.eqb_neq in E. congruence.
Qed.

(** What an operation does to the state, whether it returns or raises:
    entries are dropped, or (a write that returns) entries are dropped and
    the written key goes to the end of both indexes. *)
Lemma exec_effect o s :
  consistent s -> timer_ok (__timer s) ->
  timer_advances (__timer s) (__timer (exec' o s)) /\
  (shrinks s (exec' o s) \/
   exists key value now s1,
     snapshot timer s = Some now /\ restricted s s1 /\
     __data (exec' o s) = od_set key value (__data s1) /\
     __expiry_info (exec' o s) =
       od_remove key (__expiry_info s1) ++ [(key, now + ttl)] /\
     __order (exec' o s) = od_remove key (__order s1) ++ [(key, tt)]).
Proof.
  intros C Tok. destruct (snapshot_ok s Tok) as [now Hsnap].
  pose proof (timer_advances_scope timer s Tok) as Adv.
  assert (Same : shrinks s (exited (entered timer s)))
    by (apply shrinks_same; reflexivity).
  destruct o as [key value|key|key|key|time|key| | |]; unfold exec.
  - destruct (__setitem__ _ _ _ _ key value s) as [r s'] eqn:P. simpl.
    destruct (setitem_spec maxsize ttl timer getsizeof now key value s r s'
                C Tok Hsnap P) as [Ht R].
    rewrite Ht. split; auto. destruct r as [u|x].
    + right. destruct R as (s1 & R). exists key, value, now, s1. auto.
    + left. apply R.
  - destruct (__getitem__ timer key s) as [r s'] eqn:P. simpl.
    destruct (getitem_effect timer s key r s' C Tok P); auto.
  - destruct (__delitem__ timer key s) as [r s'] eqn:P. simpl.
    destruct (delitem_effect timer s key r s' C Tok P); auto.
  - destruct (__contains__ timer key s) as [r s'] eqn:P. simpl.
    destruct (contains_effect timer s key r s' Tok P); auto.
  - destruct (expire timer time s) as [r s'] eqn:P. simpl.
    destruct (expire_effect timer s time r s' C Tok P); auto.
  - destruct (pop timer key s) as [r s'] eqn:P. simpl.
    destruct (pop_spec timer now s key r s' C Tok Hsnap P) as [Ht R].
    rewrite Ht. split; auto. left. destruct r as [v|x].
    + destruct R as (e & _ & _ & _ & ->).
      apply restricted_shrinks. exists (fun k => negb (keqb key k)). auto.
    + apply R.
  - destruct (popitem timer s) as [r s'] eqn:P. simpl.
    destruct (popitem_spec timer now s r s' C Tok Hsnap P) as [Ht R].
    rewrite Ht. split; auto. left. destruct r as [[k v]|x].
    + destruct R as (_ & _ & ->). apply restricted_shrinks.
      apply (restricted_trans s (purged now s)).
      * apply restricted_restrict.
      * exists (fun x => negb (keqb k x)). auto.
    + apply R.
  - destruct (clear timer s) as [r s'] eqn:P. simpl.
    destruct (clear_spec timer s r s' C Tok P) as [Ht Sh].
    rewrite Ht. auto.
  - destruct (__len__ timer s) as [r s'] eqn:P. simpl.
    destruct (len_effect timer s r s' Tok P); auto.
Qed.

Lemma exec_consistent o s :
  consistent s -> timer_ok (__timer s) ->
  consistent (exec' o s) /\ timer_ok (__timer (exec' o s)).
Proof.
  intros C Tok. destruct (exec_effect o s C Tok) as [(_ & _ & Tok') E].
  split; auto. destruct E as [Sh|(key & value & now & s1 & _ & R & Hd & He & Ho)].
  - eapply consistent_shrinks; eauto.
  - apply (consistent_written s1 _ key value (now + ttl)); auto.
    apply (consistent_shrinks s); auto using restricted_shrinks.
Qed.

Lemma init_consistent : consistent (TTLCache__init__ (K := K) (V := V)).
Proof.
  split; [repeat split; constructor | intros k; auto].
Qed.

Lemma reachable_consistent s :
  reachable' s -> consistent s /\ timer_ok (__timer s).
Proof.
  induction 1 as [|o s R [C Tok]].
  - split; [apply init_consistent | split; simpl; auto; lia].
  - now apply exec_consistent.
Qed.

Lemma init_Inv : Inv ttl timer (TTLCache__init__ (K := K) (V := V)).
Proof.
  split; [apply init_consistent|]. split; [constructor|].
  split; [intros k e []|reflexivity].
Qed.

Lemma exec_Inv o s :
  monotone timer -> Inv ttl timer s -> Inv ttl timer (exec' o s).
Proof.
  intros Mono (C & Hs & Hb & Hn).
  assert (Tok : timer_ok (__timer s)) by (split; [lia | auto]).
  destruct (exec_consistent o s C Tok) as [C' _].
  destruct (exec_effect o s C Tok) as [(Hn' & Hk & _) E].
  split; [exact C'|].
  destruct E as [Sh|(key & value & now & s1 & Hsnap & R & Hd & He & Ho)].
  - split; [eapply sorted_shrinks; eauto|]. split; [|congruence].
    intros k e Hin j Hj. apply (Hb k e); [|lia].
    eapply shrinks_In_expiry; eauto.
  - unfold snapshot in Hsnap. rewrite Hn in Hsnap. simpl in Hsnap.
    injection Hsnap as <-.
    destruct R as (keep & _ & Hx & _).
    assert (Hold : forall k e, In (k, e) (od_remove key (__expiry_info s1)) ->
                     In (k, e) (__expiry_info s)).
    { intros k e. rewrite Hx. unfold od_remove, od_filter.
      rewrite !filter_In. tauto. }
    split; [|split; [|congruence]].
    + unfold expiry_sorted. rewrite He. apply sorted_snoc.
      * rewrite Hx, od_remove_filter. now do 2 apply sorted_filter.
      * intros k e Hin. apply (Hb k e); auto.
    + intros k e. rewrite He. intros Hin j Hj. apply in_app_or in Hin.
      destruct Hin as [Hin|[[= <- <-]|[]]].
      * apply (Hb k e); auto. lia.
      * pose proof (Mono (ticks (__timer s)) j). lia.
Qed.

Lemma reachable_Inv s : monotone timer -> reachable' s -> Inv ttl timer s.
Proof.
  intros Mono. induction 1; [apply init_Inv | now apply exec_Inv].
Qed.
End Reachable.

(** ** Operations that complete *)

Section Totality.
Context {K V : Type} `{EqKey K}.
Variable maxsize : Z.
Variable ttl : Z.
Variable timer : nat -> Z.
Variable getsizeof : V -> Z.

Abbreviation cache := (TTLCache K V).
Implicit Types (s : cache) (key : K) (now : Z).

(** Every entry of the expiry index is live at [now]. *)
Let all_live now s : Prop :=
  forall k e, od_get k (__expiry_info s) = Some e -> now <= e.

Lemma all_live_purged now s : all_live now s -> purged now s = s.
Proof.
  intros Hl.
  assert (E : expired_prefix (__expiry_info s) now = []).
  { destruct (__expiry_info s) as [|[k e] l] eqn:Ex; auto. simpl.
    assert (Hle : now <= e).
    { apply (Hl k). rewrite Ex. simpl. destruct (key_eq_dec k k); congruence. }
    apply Z.leb_le in Hle. now rewrite Hle. }
  unfold purged. rewrite E. destruct s as [d x o t].
  unfold restrict, od_filter. simpl. now rewrite !filter_true.
Qed.

Lemma all_live_after_purge now s : expiry_sorted s -> all_live now (purged now s).
Proof. intros Hs k e. now apply purged_live. Qed.

Lemma all_live_without now s k : all_live now s -> all_live now (without k s).
Proof.
  intros Hl k' e. unfold without. simpl. rewrite od_get_filter.
  destruct (negb (keqb k k')); [apply Hl | discriminate].
Qed.

Lemma empty_order_empty s :
  consistent s -> __order s = [] -> __data s = [] /\ __expiry_info s = [].
Proof.
  intros [_ L] Ho. split.
  - destruct (__data s) as [|[k v] d] eqn:Ed; auto.
    destruct (L k) as [L1 _]. rewrite Ed, Ho in L1. unfold od_mem in L1.
    simpl in L1. destruct (key_eq_dec k k); congruence.
  - destruct (__expiry_info s) as [|[k e] x] eqn:Ex; auto.
    destruct (L k) as [_ L2]. rewrite Ex, Ho in L2. unfold od_mem in L2.
    simpl in L2. destruct (key_eq_dec k k); congruence.
Qed.

(** When every entry is live, [popitem] returns unless the cache is
    empty. *)
Lemma popitem_live now s r s' :
  consistent s -> in_scope now s -> all_live now s ->
  popitem timer s = (r, s') ->
  match r with
  | Return (k, v) => od_mem k (__data s) = true /\ s' = without k s
  | Raise x => x = KeyError_empty /\ __order s = [] /\ s' = s
  end.
Proof.
  intros C Sc Hl P.
  destruct (popitem_in_scope timer now s r s' C Sc P) as [_ R].
  rewrite (all_live_purged now s Hl) in R. destruct r as [[k v]|x].
  - destruct R as (_ & Hv & ->). split; auto. now apply od_get_mem in Hv.
  - destruct R as (_ & [R|(k & e & _ & He & Hlt)]); auto.
    specialize (Hl k e He). lia.
Qed.

Lemma evict_returns now key size :
  size <= maxsize ->
  forall (fuel : nat) s,
    consistent s -> in_scope now s -> all_live now s ->
    (List.length (__data s) < fuel)%nat ->
    exists s', Cache_evict maxsize getsizeof fuel (popitem timer) key size s
               = (Return tt, s').
Proof.
  intros Hfit. induction fuel as [|fuel IH]; intros s C Sc Hl Hlen; [lia|].
  simpl. destruct (over_budget maxsize getsizeof key size s) eqn:Eover; eauto.
  unfold bind. destruct (popitem timer s) as [[[k v]|x] s1] eqn:P;
    pose proof (popitem_live now s _ s1 C Sc Hl P) as R.
  - destruct R as (Hk & ->). apply IH.
    + now apply consistent_restrict.
    + exact Sc.
    + now apply all_live_without.
    + pose proof (without_length s k Hk). lia.
  - destruct R as (_ & Ho & _).
    destruct (empty_order_empty s C Ho) as [Hd _].
    unfold over_budget, Cache_currsize in Eover. rewrite Hd in Eover.
    simpl in Eover. apply Z.ltb_lt in Eover. lia.
Qed.

(** On a cache whose expiry index is sorted, a write of a value that
    fits the cache returns. *)
Lemma setitem_returns s key value :
  Inv ttl timer s -> getsizeof value <= maxsize ->
  exists s', __setitem__ maxsize ttl timer getsizeof key value s = (Return tt, s').
Proof.
  intros (C & Hs & _ & Hn) Hfit.
  assert (Tok : timer_ok (__timer s)) by (split; [lia | auto]).
  destruct (with_timer_ok timer unit
              (setitem_with maxsize ttl timer getsizeof key value) s Tok)
    as (now & _ & Sc & E).
  unfold __setitem__. rewrite E. clear E.
  assert (C1 : consistent (entered timer s)) by exact C.
  set (sp := purged now (entered timer s)).
  assert (Cp : consistent sp) by now apply consistent_restrict.
  assert (Hl : forall k e, od_get k (__expiry_info sp) = Some e -> now <= e)
    by (intros k e; now apply purged_live).
  unfold setitem_with, bind at 1. rewrite (expire_some timer now _ C1). fold sp.
  unfold bind at 1, Cache__setitem__.
  replace (maxsize <? getsizeof value) with false
    by (symmetry; apply Z.ltb_ge; lia).
  unfold bind at 1, get_self. unfold bind at 1.
  destruct (evict_returns now key (getsizeof value) Hfit
              (S (List.length (__data sp))) sp Cp Sc Hl (Nat.lt_succ_diag_r _))
    as [s2 Ev].
  rewrite Ev.
  destruct (evict_spec maxsize timer getsizeof now key (getsizeof value)
              _ _ _ _ Cp Sc Ev) as (_ & Sh & _).
  pose proof (consistent_shrinks sp s2 Cp Sh) as C2.
  unfold bind at 1, try_KeyError.
  destruct (od_get key (__expiry_info s2)) as [e|] eqn:Hx.
  - destruct (lockstep_get_data _ _ _ C2 Hx) as [Hko _].
    rewrite (getexpiry_present (set_data (od_set key value (__data s2)) s2) key e)
      by assumption.
    unfold bind, expiry_delitem, expiry_setitem. simpl.
    rewrite (od_get_mem _ _ _ Hx). eauto.
  - rewrite (getexpiry_absent (set_data (od_set key value (__data s2)) s2) key)
      by assumption.
    unfold bind, order_setitem, expiry_setitem. eauto.
Qed.

Lemma Cache_clear_empties now :
  forall (fuel : nat) s,
    consistent s -> in_scope now s -> all_live now s ->
    (List.length (__data s) < fuel)%nat ->
    exists s', Cache_clear fuel (popitem timer) s = (Return tt, s') /\
               __data s' = [] /\ __expiry_info s' = [] /\ __order s' = [].
Proof.
  induction fuel as [|fuel IH]; intros s C Sc Hl Hlen; [lia|].
  simpl. destruct (popitem timer s) as [[[k v]|x] s1] eqn:P;
    pose proof (popitem_live now s _ s1 C Sc Hl P) as R.
  - destruct R as (Hk & ->). apply IH.
    + now apply consistent_restrict.
    + exact Sc.
    + now apply all_live_without.
    + pose proof (without_length s k Hk). lia.
  - destruct R as (-> & Ho & ->). exists s.
    destruct (empty_order_empty s C Ho). auto.
Qed.

(** On a cache whose expiry index is sorted, [clear] returns and leaves
    the three structures empty. *)
Lemma clear_empties s :
  Inv ttl timer s ->
  exists s', clear timer s = (Return tt, s') /\
             __data s' = [] /\ __expiry_info s' = [] /\ __order s' = [].
Proof.
  intros (C & Hs & _ & Hn).
  assert (Tok : timer_ok (__timer s)) by (split; [lia | auto]).
  destruct (with_timer_ok timer unit (clear_with timer) s Tok)
    as (now & _ & Sc & E).
  unfold clear. rewrite E. clear E.
  assert (C1 : consistent (entered timer s)) by exact C.
  set (sp := purged now (entered timer s)).
  assert (Cp : consistent sp) by now apply consistent_restrict.
  assert (Hl : forall k e, od_get k (__expiry_info sp) = Some e -> now <= e)
    by (intros k e; now apply purged_live).
  unfold clear_with, bind at 1. rewrite (expire_some timer now _ C1). fold sp.
  unfold bind, get_self.
  destruct (Cache_clear_empties now (S (List.length (__data sp))) sp Cp Sc Hl
              (Nat.lt_succ_diag_r _)) as (s' & -> & Hd & Hx & Ho).
  exists (exited s'). auto.
Qed.
End Totality.

(** ** Whole operations *)

Section Claims.
Context {K V : Type} `{EqKey K}.
Variable maxsize : Z.
Variable ttl : Z.
Variable timer : nat -> Z.
Variable getsizeof : V -> Z.

Abbreviation cache := (TTLCache K V).
Abbreviation exec' := (exec maxsize ttl timer getsizeof).
Abbreviation reachable' := (reachable maxsize ttl timer getsizeof).
Implicit Types (s : cache) (key : K) (now : Z) (o : op (K := K) (V := V)).

(** C2. After every public operation on a cache ([cache[k] = v],
    [cache[k]], [del cache[k]], [k in cache], [expire], [pop], [popitem],
    [clear], [len]), whether it returned or raised, the bounded store, the
    access order index and the expiry index hold the same keys, each key
    once. *)
Theorem lockstep_after_every_operation s o :
  reachable' s ->
  lockstep (exec' o s) /\ unique_keys (exec' o s).
Proof.
  intros R. destruct (reachable_consistent maxsize ttl timer getsizeof s R)
    as [C Tok].
  destruct (exec_consistent maxsize ttl timer getsizeof o s C Tok) as [[U L] _].
  auto.
Qed.

(** C3. On a cache whose clock never ran backwards, [expire(now)] returns
    and leaves in the store exactly the keys whose recorded expiry time is
    [>= now]; a key whose expiry time equals [now] stays. *)
Theorem purge_correct s now k :
  monotone timer -> reachable' s ->
  let s' := snd (expire timer (Some now) s) in
  fst (expire timer (Some now) s) = Return tt /\
  (od_mem k (__data s') = true <->
   exists e, od_get k (__expiry_info s) = Some e /\ now <= e) /\
  (od_mem k (__data s') = true <->
   exists e, od_get k (__expiry_info s') = Some e /\ now <= e).
Proof.
  intros Mono R.
  destruct (reachable_Inv maxsize ttl timer getsizeof s Mono R)
    as (C & Hs & _ & _).
  rewrite (expire_some timer now s C). simpl. split; auto.
  rewrite od_mem_filter, od_get_filter.
  rewrite expired_prefix_sorted by exact Hs.
  destruct C as [_ L]. destruct (L k) as [L1 L2]. rewrite L1, L2.
  unfold od_mem. destruct (od_get k (__expiry_info s)) as [e|]; simpl.
  - destruct (Z.ltb_spec e now); simpl; split; split;
      try discriminate; try (intros (e' & [= <-] & Hle); lia);
      try (intros _; exists e; split; auto; lia).
  - split; split; try discriminate; intros (e' & [=] & _).
Qed.

(** C9. On a cache whose clock never ran backwards, [popitem] first
    purges at the snapshot time.  If the access order index is then empty
    it raises the empty-cache error.  Otherwise it returns the first key
    of the access order index, which is live, with its value, and removes
    that key from the three structures. *)
Theorem popitem_least_recently_used s :
  monotone timer -> reachable' s ->
  let now := timer (ticks (__timer s)) in
  let sp := snd (expire timer (Some now) s) in
  match __order sp with
  | [] => fst (popitem timer s) = Raise KeyError_empty
  | (k, _) :: rest =>
      exists v e,
        od_get k (__data sp) = Some v /\
        od_get k (__expiry_info sp) = Some e /\ now <= e /\
        fst (popitem timer s) = Return (k, v) /\
        __data (snd (popitem timer s)) = od_remove k (__data sp) /\
        __order (snd (popitem timer s)) = rest /\
        __expiry_info (snd (popitem timer s)) = od_remove k (__expiry_info sp)
  end.
Proof.
  intros Mono R now sp.
  destruct (reachable_Inv maxsize ttl timer getsizeof s Mono R)
    as (C & Hs & _ & Hn).
  assert (Tok : timer_ok (__timer s)) by (split; [lia | auto]).
  assert (Hsnap : snapshot timer s = Some now)
    by (unfold snapshot; now rewrite Hn).
  assert (Esp : sp = purged now s)
    by (subst sp; now rewrite (expire_some timer now s C)).
  clearbody sp. subst sp.
  assert (Cp : consistent (purged now s)) by now apply consistent_restrict.
  destruct (popitem timer s) as [r s'] eqn:P.
  destruct (popitem_spec timer now s r s' C Tok Hsnap P) as [Ht Q].
  cbn [fst snd]. destruct r as [[k v]|x].
  - destruct Q as ((rest & Ho) & Hv & ->).
    change (__order (purged now s) = (k, tt) :: rest) in Ho.
    change (od_get k (__data (purged now s)) = Some v) in Hv.
    rewrite Ho. cbv beta iota.
    destruct Cp as [(_ & _ & No) L]. destruct (L k) as [L1 L2].
    assert (Hk : od_mem k (__expiry_info (purged now s)) = true).
    { rewrite <- L2, Ho. unfold od_mem. simpl.
      destruct (key_eq_dec k k); congruence. }
    destruct (od_mem_get _ _ Hk) as [e He]. exists v, e.
    split; [exact Hv|]. split; [exact He|].
    split; [exact (purged_live now s k e Hs He)|].
    split; [reflexivity|]. split; [reflexivity|]. split; [|reflexivity].
    change (od_remove k (__order (purged now s)) = rest).
    rewrite Ho. apply od_remove_head. now rewrite <- Ho.
  - destruct Q as (_ & [(-> & Ho & _)|(k & e & _ & He & Hlt)]).
    + change (__order (purged now s) = []) in Ho. rewrite Ho. reflexivity.
    + change (od_get k (__expiry_info (purged now s)) = Some e) in He.
      pose proof (purged_live now s k e Hs He). lia.
Qed.

(** C1 as the code has it.  A write [cache[key] = value] that returns
    leaves [key] at the most recently used end of the access order index,
    whether the key is new or was already there (the write reads the old
    expiry time through [__getexpiry], which moves the key to the end);
    the keys that remain before it are keys of the old index, in the
    order they had. *)
Theorem setitem_moves_key_to_end s key value s' :
  consistent s -> timer_ok (__timer s) ->
  __setitem__ maxsize ttl timer getsizeof key value s = (Return tt, s') ->
  exists keep : K -> bool,
    keep key = false /\
    __order s' = od_filter keep (__order s) ++ [(key, tt)].
Proof.
  intros C Tok P. destruct (snapshot_ok timer s Tok) as [now Hsnap].
  destruct (setitem_spec maxsize ttl timer getsizeof now key value s _ s'
              C Tok Hsnap P) as [_ (s1 & (keep & _ & _ & Hk) & _ & _ & Ho)].
  exists (fun x => keep x && negb (keqb key x)). split.
  - now rewrite keqb_refl, andb_false_r.
  - now rewrite Ho, Hk, od_remove_filter, od_filter_filter.
Qed.

(** C5. A key written at clock reading [t] has the recorded expiry time
    [t + ttl].  While that entry stands, [key in cache] is true at a
    clock reading of exactly [t + ttl]; at any later reading it is false
    and [cache[key]] takes the missing path and raises the not-found
    error. *)
Theorem boundary_liveness s key value s1 :
  consistent s -> __nesting (__timer s) = 0 ->
  __setitem__ maxsize ttl timer getsizeof key value s = (Return tt, s1) ->
  let t := timer (ticks (__timer s)) in
  od_get key (__expiry_info s1) = Some (t + ttl) /\
  forall (s2 : cache) (now : Z),
    __expiry_info s2 = __expiry_info s1 -> __order s2 = __order s1 ->
    fst (timer_call timer s2) = Return now ->
    (now = t + ttl ->
     fst (__contains__ timer key s2) = Return true) /\
    (t + ttl < now ->
     fst (__contains__ timer key s2) = Return false /\
     fst (__getitem__ timer key s2) = Raise (KeyError key)).
Proof.
  intros C Hn P t.
  assert (Tok : timer_ok (__timer s)) by (split; [lia | auto]).
  assert (Hsnap : snapshot timer s = Some t)
    by (unfold snapshot; now rewrite Hn).
  destruct (setitem_spec maxsize ttl timer getsizeof t key value s _ s1
              C Tok Hsnap P) as [_ (s0 & _ & _ & He & Ho)].
  assert (Hx : od_get key (__expiry_info s1) = Some (t + ttl)).
  { rewrite He, od_get_app.
    pose proof (od_mem_remove_same key (__expiry_info s0)) as Hm.
    unfold od_mem in Hm. destruct (od_get key (od_remove key _)); [discriminate|].
    simpl. destruct (key_eq_dec key key); congruence. }
  assert (Hk : od_mem key (__order s1) = true).
  { rewrite Ho, od_mem_app, od_mem_single, keqb_refl. apply orb_true_r. }
  split; auto. intros s2 now Ex2 Eo2 Hnow.
  rewrite <- Ex2 in Hx. rewrite <- Eo2 in Hk.
  rewrite (contains_spec timer s2 key (t + ttl) now Hx Hnow). split.
  - intros ->. now rewrite Z.leb_refl.
  - intros Hlt. split.
    + f_equal. apply Z.leb_gt. lia.
    + now rewrite (getitem_expired timer s2 key (t + ttl) now Hx Hk Hnow Hlt).
Qed.

(** C7. With a clock that never runs backwards and the cache's fixed TTL,
    after any sequence of writes to a new cache the expiry index iterates
    in non-decreasing order of expiry time; and a further write that
    returns leaves the written key's only entry, with the expiry time
    [now + ttl], at the end of the index. *)
Theorem expiry_index_monotone (kvs : list (K * V)) :
  monotone timer ->
  let s := run_sets maxsize ttl timer getsizeof kvs TTLCache__init__ in
  expiry_sorted s /\
  forall key value s',
    __setitem__ maxsize ttl timer getsizeof key value s = (Return tt, s') ->
    expiry_sorted s' /\
    exists front,
      __expiry_info s' = front ++ [(key, timer (ticks (__timer s)) + ttl)] /\
      od_mem key front = false.
Proof.
  intros Mono s.
  assert (R : reachable' s).
  { subst s. unfold run_sets. generalize (reachable_init maxsize ttl timer getsizeof).
    generalize (TTLCache__init__ (K := K) (V := V)).
    induction kvs as [|[k v] kvs IH]; intros s0 R0; simpl; auto.
    apply IH. exact (reachable_exec (Set_ k v) R0). }
  destruct (reachable_Inv maxsize ttl timer getsizeof s Mono R)
    as (C & Hs & Hb & Hn).
  split; auto. intros key value s' P. split.
  - pose proof (reachable_Inv maxsize ttl timer getsizeof _ Mono
                  (reachable_exec (Set_ key value) R)) as (_ & Hs' & _).
    simpl in Hs'. now rewrite P in Hs'.
  - assert (Tok : timer_ok (__timer s)) by (split; [lia | auto]).
    assert (Hsnap : snapshot timer s = Some (timer (ticks (__timer s))))
      by (unfold snapshot; now rewrite Hn).
    destruct (setitem_spec maxsize ttl timer getsizeof _ key value s _ s'
                C Tok Hsnap P) as [_ (s0 & _ & _ & He & _)].
    exists (od_remove key (__expiry_info s0)). split; auto.
    apply od_mem_remove_same.
Qed.
(** ** Further properties of the operations *)

(** X1. On a cache whose clock never ran backwards, a write
    [cache[key] = value] of a value that fits ([getsizeof(value) <=
    maxsize]) returns, and leaves [value] stored under [key] with the
    expiry time [now + ttl]; a write of a value that does not fit raises
    [ValueError]. *)
Theorem setitem_returns_iff_fits s key value :
  monotone timer -> reachable' s ->
  (getsizeof value <= maxsize ->
   exists s',
     __setitem__ maxsize ttl timer getsizeof key value s = (Return tt, s') /\
     od_get key (__data s') = Some value /\
     od_get key (__expiry_info s') = Some (timer (ticks (__timer s)) + ttl)) /\
  (maxsize < getsizeof value ->
   fst (__setitem__ maxsize ttl timer getsizeof key value s) = Raise ValueError).
Proof.
  intros Mono R.
  pose proof (reachable_Inv maxsize ttl timer getsizeof s Mono R) as I.
  destruct I as (C & Hs & Hb & Hn).
  assert (Tok : timer_ok (__timer s)) by (split; [lia | auto]).
  assert (Hsnap : snapshot timer s = Some (timer (ticks (__timer s))))
    by (unfold snapshot; now rewrite Hn).
  split.
  - intros Hfit.
    destruct (setitem_returns maxsize ttl timer getsizeof s key value
                (conj C (conj Hs (conj Hb Hn))) Hfit) as [s' P].
    exists s'. split; auto.
    destruct (setitem_spec maxsize ttl timer getsizeof _ key value s _ s'
                C Tok Hsnap P) as [_ (s1 & _ & Hd & He & _)].
    rewrite Hd, He, od_get_set, od_get_app. split.
    + destruct (key_eq_dec key key); congruence.
    + pose proof (od_mem_remove_same key (__expiry_info s1)) as Hm.
      unfold od_mem in Hm.
      destruct (od_get key (od_remove key _)); [discriminate|].
      simpl. destruct (key_eq_dec key key); congruence.
  - intros Hbig.
    destruct (with_timer_ok timer unit
                (setitem_with maxsize ttl timer getsizeof key value) s Tok)
      as (now & _ & Sc & E).
    unfold __setitem__. rewrite E. clear E.
    assert (C1 : consistent (entered timer s)) by exact C.
    unfold setitem_with, bind at 1. rewrite (expire_some timer now _ C1).
    unfold bind at 1, Cache__setitem__.
    replace (maxsize <? getsizeof value) with true
      by (symmetry; apply Z.ltb_lt; lia).
    reflexivity.
Qed.

(** X2. On a cache whose clock never ran backwards, [clear] returns and
    leaves the bounded store and both indexes empty. *)
Theorem clear_leaves_nothing s :
  monotone timer -> reachable' s ->
  exists s', clear timer s = (Return tt, s') /\
             __data s' = [] /\ __expiry_info s' = [] /\ __order s' = [].
Proof.
  intros Mono R. apply (clear_empties ttl timer s).
  now apply (reachable_Inv maxsize ttl timer getsizeof).
Qed.

(** X3. [key in cache] changes nothing in the bounded store or in either
    index, in any state: it neither purges nor reorders. *)
Theorem contains_mutates_nothing s key :
  __data (snd (__contains__ timer key s)) = __data s /\
  __expiry_info (snd (__contains__ timer key s)) = __expiry_info s /\
  __order (snd (__contains__ timer key s)) = __order s.
Proof.
  unfold __contains__, bind, try_KeyError, expiry_getitem.
  destruct (od_get key (__expiry_info s)); simpl; auto.
  destruct (timer_call timer s) as [[now|x] s1] eqn:E; simpl;
    apply (timer_call_frame timer _ _ _ E).
Qed.

(** X4. On a cache whose clock never ran backwards, [len(cache)] is the
    number of entries of the expiry index that are live at the time of
    the call. *)
Theorem len_counts_live_entries s :
  monotone timer -> reachable' s ->
  let now := timer (ticks (__timer s)) in
  fst (__len__ timer s) =
  Return (Z.of_nat (List.length
                      (filter (fun p => now <=? snd p) (__expiry_info s)))).
Proof.
  intros Mono R now.
  destruct (reachable_Inv maxsize ttl timer getsizeof s Mono R)
    as (C & Hs & _ & Hn).
  unfold __len__, bind. rewrite (timer_call_top timer s Hn).
  unfold get_self, ret. simpl. fold now. f_equal.
  unfold expiry_sorted in Hs. revert Hs.
  generalize (__expiry_info s). intros items Hs.
  assert (L : forall c, len_loop items now c =
            c - Z.of_nat (List.length (filter (fun p => snd p <? now) items))).
  { induction items as [|[k e] items IH]; intros c; simpl; [lia|].
    inversion Hs as [|? ? Hs' Hall]; subst.
    destruct (Z.ltb_spec e now) as [Hlt|Hge].
    - rewrite (IH Hs'). simpl List.length. lia.
    - replace (filter (fun p => snd p <? now) items) with (@nil (K * Z));
        [simpl; lia|].
      symmetry. rewrite <- (filter_false items). apply filter_ext_in.
      intros [k' e'] Hin. simpl. rewrite Forall_forall in Hall.
      specialize (Hall e' (in_map snd _ _ Hin)). simpl in Hall.
      apply Z.ltb_ge. lia. }
  rewrite L.
  pose proof (filter_length (fun p : K * Z => snd p <? now) items) as Hlen.
  replace (filter (fun p => now <=? snd p) items)
    with (filter (fun p => negb (snd p <? now)) items).
  - lia.
  - apply filter_ext. intros [k e]. simpl.
    destruct (Z.ltb_spec e now); destruct (Z.leb_spec now e); auto; lia.
Qed.
End Claims.

(** ** The small cache *)

Section Small.
Local Open Scope string_scope.

Lemma clock_monotone : monotone clock.
Proof. unfold monotone, clock. intros i j Hij. lia. Qed.

Lemma small_ab_reachable : small_reachable small_ab.
Proof.
  unfold small_reachable, small_ab, small_exec, small_init.
  repeat apply reachable_exec. apply reachable_init.
Qed.

Lemma small_ab_state :
  small_ab =
  {| __data := [("a", 1); ("b", 2)];
     __expiry_info := [("a", 10); ("b", 11)];
     __order := [("a", tt); ("b", tt)];
     __timer := {| ticks := 2; __nesting := 0; __time := Some 1 |} |}.
Proof. reflexivity. Qed.

(** C6. [maxsize = 2], [ttl = 10], clock 0, 1, 2, 3: after
    [c["a"] = 1], [c["b"] = 2] and the lookup [c["a"]], which moves "a"
    behind "b" in the access order, the write [c["c"] = 3] evicts "b":
    the eviction pops ("b", 2), and the store is left with "a" and "c". *)
Theorem lru_eviction_scenario :
  let s3 := small_exec (Get_ "a") small_ab in
  let s4 := small_exec (Set_ "c" 3) s3 in
  __getitem__ clock "a" small_ab = (Return 1, s3) /\
  __order small_ab = [("a", tt); ("b", tt)] /\
  __order s3 = [("b", tt); ("a", tt)] /\
  fst (popitem clock (entered clock s3)) = Return ("b", 2) /\
  __setitem__ 2 10 clock unit_size "c" 3 s3 = (Return tt, s4) /\
  __data s4 = [("a", 1); ("c", 3)] /\
  __order s4 = [("a", tt); ("c", tt)] /\
  __expiry_info s4 = [("a", 10); ("c", 13)] /\
  od_mem "b" (__data s4) = false.
Proof. vm_compute. repeat split; reflexivity. Qed.

(** C1 as stated fails: with "a" and "b" in the cache, both live, the
    overwrite [c["a"] = 9] returns and moves "a" from before "b" to
    behind it. *)
Lemma overwrite_keeps_position_counterexample :
  let s' := small_exec (Set_ "a" 9) small_ab in
  od_get "a" (__expiry_info small_ab) = Some 10 /\
  __setitem__ 2 10 clock unit_size "a" 9 small_ab = (Return tt, s') /\
  __order small_ab = [("a", tt); ("b", tt)] /\
  __order s' = [("b", tt); ("a", tt)] /\
  ~ keeps_position "a" (__order small_ab) (__order s').
Proof.
  repeat split; try reflexivity.
  intros Hkeep. destruct (Hkeep "b") as [Hp _]; try reflexivity.
  - discriminate.
  - vm_compute in Hp. discriminate.
Qed.

Lemma setitem_moves_key_to_end_witness :
  exists keep : string -> bool,
    keep "a" = false /\
    __order (small_exec (Set_ "a" 9) small_ab) =
    (od_filter keep (__order small_ab) ++ [("a", tt)])%list.
Proof.
  apply (setitem_moves_key_to_end 2 10 clock unit_size small_ab "a" 9).
  - apply (reachable_consistent 2 10 clock unit_size), small_ab_reachable.
  - apply (reachable_consistent 2 10 clock unit_size), small_ab_reachable.
  - reflexivity.
Defined.

Lemma lockstep_after_every_operation_witness :
  lockstep (small_exec (Del_ "a") small_ab) /\
  unique_keys (small_exec (Del_ "a") small_ab).
Proof.
  apply (lockstep_after_every_operation 2 10 clock unit_size small_ab (Del_ "a")).
  apply small_ab_reachable.
Defined.

(** At time 11 the entry of "a" (expiry time 10) is purged and the entry
    of "b" (expiry time 11) stays. *)
Lemma purge_correct_witness :
  (let s' := snd (expire clock (Some 11) small_ab) in
   fst (expire clock (Some 11) small_ab) = Return tt /\
   (od_mem "b" (__data s') = true <->
    exists e, od_get "b" (__expiry_info small_ab) = Some e /\ 11 <= e) /\
   (od_mem "b" (__data s') = true <->
    exists e, od_get "b" (__expiry_info s') = Some e /\ 11 <= e)) /\
  __data (snd (expire clock (Some 11) small_ab)) = [("b", 2)].
Proof.
  split; [|reflexivity].
  apply (purge_correct 2 10 clock unit_size small_ab 11 "b").
  - apply clock_monotone.
  - apply small_ab_reachable.
Defined.

(** [popitem] on the cache holding "a" (written at 0) and "b" (written
    at 1), both live: it returns ("a", 1) and leaves "b". *)
Lemma popitem_least_recently_used_witness :
  (let now := clock (ticks (__timer small_ab)) in
   let sp := snd (expire clock (Some now) small_ab) in
   match __order sp with
   | [] => fst (popitem clock small_ab) = Raise KeyError_empty
   | (k, _) :: rest =>
       exists v e,
         od_get k (__data sp) = Some v /\
         od_get k (__expiry_info sp) = Some e /\ now <= e /\
         fst (popitem clock small_ab) = Return (k, v) /\
         __data (snd (popitem clock small_ab)) = od_remove k (__data sp) /\
         __order (snd (popitem clock small_ab)) = rest /\
         __expiry_info (snd (popitem clock small_ab)) =
           od_remove k (__expiry_info sp)
   end) /\
  fst (popitem clock small_ab) = Return ("a", 1) /\
  __data (snd (popitem clock small_ab)) = [("b", 2)] /\
  __order (snd (popitem clock small_ab)) = [("b", tt)] /\
  __expiry_info (snd (popitem clock small_ab)) = [("b", 11)].
Proof.
  split; [|repeat split; reflexivity].
  apply (popitem_least_recently_used 2 10 clock unit_size small_ab).
  - apply clock_monotone.
  - apply small_ab_reachable.
Defined.

(** "a", written at time 0 with TTL 10, is in the cache at time 10 and
    not at time 11. *)
Lemma boundary_liveness_witness :
  let s1 := small_exec (Set_ "a" 1) small_init in
  od_get "a" (__expiry_info s1) = Some 10 /\
  fst (__contains__ clock "a"
         (set_timer {| ticks := 10; __nesting := 0; __time := Some 0 |} s1))
    = Return true /\
  fst (__contains__ clock "a"
         (set_timer {| ticks := 11; __nesting := 0; __time := Some 0 |} s1))
    = Return false /\
  fst (__getitem__ clock "a"
         (set_timer {| ticks := 11; __nesting := 0; __time := Some 0 |} s1))
    = Raise (KeyError "a").
Proof.
  intros s1.
  destruct (boundary_liveness 2 10 clock unit_size small_init "a" 1 s1
              init_consistent eq_refl eq_refl) as [Hx Hlater].
  split; [exact Hx|].
  destruct (Hlater (set_timer {| ticks := 10; __nesting := 0; __time := Some 0 |} s1)
              10 eq_refl eq_refl eq_refl) as [Hat _].
  destruct (Hlater (set_timer {| ticks := 11; __nesting := 0; __time := Some 0 |} s1)
              11 eq_refl eq_refl eq_refl) as [_ Hafter].
  split; [apply Hat; reflexivity|]. apply Hafter. reflexivity.
Defined.

Lemma expiry_index_monotone_witness :
  let s := run_sets 2 10 clock unit_size [("a", 1); ("b", 2); ("a", 3)]
             TTLCache__init__ in
  expiry_sorted s /\
  forall key value s',
    __setitem__ 2 10 clock unit_size key value s = (Return tt, s') ->
    expiry_sorted s' /\
    exists front,
      __expiry_info s' = (front ++ [(key, clock (ticks (__timer s)) + 10)])%list /\
      od_mem key front = false.
Proof.
  apply (expiry_index_monotone 2 10 clock unit_size
           [("a", 1); ("b", 2); ("a", 3)]).
  apply clock_monotone.
Defined.

(** "a" expired at 10 and is deleted at time 11, before any purge. *)
Lemma delitem_expired_removes_then_raises_witness :
  let s := set_timer {| ticks := 11; __nesting := 0; __time := Some 1 |} small_ab in
  let s' := snd (__delitem__ clock "a" s) in
  fst (__delitem__ clock "a" s) = Raise (KeyError "a") /\
  __data s' = od_remove "a" (__data s) /\
  __order s' = od_remove "a" (__order s) /\
  __expiry_info s' = od_remove "a" (__expiry_info s) /\
  od_mem "a" (__data s') = false /\
  od_mem "a" (__order s') = false /\
  od_mem "a" (__expiry_info s') = false /\
  forall s0 : TTLCache string Z, od_mem "a" (__data s0) = false ->
    __delitem__ clock "a" s0 = (Raise (KeyError "a"), s0).
Proof.
  apply (delitem_expired_removes_then_raises clock
           (set_timer {| ticks := 11; __nesting := 0; __time := Some 1 |} small_ab)
           "a" 10 11); reflexivity.
Defined.

(** "a" expired at 10 and is looked up at time 11, before any purge. *)
Lemma getitem_expired_moves_to_end_witness :
  let s := set_timer {| ticks := 11; __nesting := 0; __time := Some 1 |} small_ab in
  let s' := snd (__getitem__ clock "a" s) in
  fst (__getitem__ clock "a" s) = Raise (KeyError "a") /\
  __data s' = __data s /\
  __expiry_info s' = __expiry_info s /\
  __order s' = (od_remove "a" (__order s) ++ [("a", tt)])%list.
Proof.
  apply (getitem_expired_moves_to_end clock
           (set_timer {| ticks := 11; __nesting := 0; __time := Some 1 |} small_ab)
           "a" 10 11); reflexivity.
Defined.
Lemma setitem_returns_iff_fits_witness :
  (unit_size 3 <= 2 ->
   exists s',
     __setitem__ 2 10 clock unit_size "c" 3 small_ab = (Return tt, s') /\
     od_get "c" (__data s') = Some 3 /\
     od_get "c" (__expiry_info s') = Some (clock (ticks (__timer small_ab)) + 10)) /\
  (2 < unit_size 3 ->
   fst (__setitem__ 2 10 clock unit_size "c" 3 small_ab) = Raise ValueError).
Proof.
  apply (setitem_returns_iff_fits 2 10 clock unit_size small_ab "c" 3).
  - apply clock_monotone.
  - apply small_ab_reachable.
Defined.

Lemma clear_leaves_nothing_witness :
  exists s', clear clock small_ab = (Return tt, s') /\
             __data s' = [] /\ __expiry_info s' = [] /\ __order s' = [].
Proof.
  apply (clear_leaves_nothing 2 10 clock unit_size small_ab).
  - apply clock_monotone.
  - apply small_ab_reachable.
Defined.

(** Two live entries at time 2. *)
Lemma len_counts_live_entries_witness :
  fst (__len__ clock small_ab) = Return 2.
Proof.
  apply (len_counts_live_entries 2 10 clock unit_size small_ab).
  - apply clock_monotone.
  - apply small_ab_reachable.
Defined.
End Small.

(** ** Lookups, deletes and their compositions *)

Section MoreLookups.
Context {K V : Type} `{EqKey K}.
Variable maxsize : Z.
Variable ttl : Z.
Variable timer : nat -> Z.
Variable getsizeof : V -> Z.

Abbreviation cache := (TTLCache K V).
Implicit Types (s : cache) (key : K) (now : Z).

Lemma od_get_remove {A : Type} (k k' : K) (d : odict K A) :
  od_get k' (od_remove k d) = if keqb k k' then None else od_get k' d.
Proof.
  rewrite od_remove_filter, od_get_filter. now destruct (keqb k k').
Qed.

Lemma getitem_live s key e v now :
  od_get key (__expiry_info s) = Some e ->
  od_mem key (__order s) = true ->
  od_get key (__data s) = Some v ->
  fst (timer_call timer s) = Return now ->
  now <= e ->
  __getitem__ timer key s = (Return v, touch key (snd (timer_call timer s))).
Proof.
  intros He Ho Hv Hnow Hle. unfold __getitem__, bind at 1, try_KeyError.
  rewrite (getexpiry_present _ _ _ He Ho). unfold bind.
  unfold timer_call in *. simpl __timer.
  destruct (_Timer__call__ timer (__timer s)) as [r t]. simpl in Hnow. subst r.
  simpl. replace (e <? now) with false by (symmetry; apply Z.ltb_ge; lia).
  unfold Cache__getitem__. simpl. now rewrite Hv.
Qed.

Lemma unknown_key s key :
  od_get key (__expiry_info s) = None ->
  od_get key (__data s) = None ->
  __getitem__ timer key s = (Raise (KeyError key), s) /\
  __contains__ (V := V) timer key s = (Return false, s) /\
  __delitem__ timer key s = (Raise (KeyError key), s).
Proof.
  intros He Hd. repeat split.
  - unfold __getitem__, bind at 1, try_KeyError.
    rewrite (getexpiry_absent _ _ He). unfold bind, ret, Cache__getitem__.
    now rewrite Hd.
  - unfold __contains__, bind, try_KeyError, expiry_getitem. now rewrite He.
  - unfold __delitem__, bind, Cache__delitem__, od_mem. now rewrite Hd.
Qed.

(** X5. A lookup [cache[key]] of a key that is in the three structures
    and whose expiry time has not passed returns the stored value and
    moves the key to the most recently used end of the access order
    index; the store is unchanged and so is the expiry index: a read does
    not renew the time to live. *)
Theorem getitem_live_returns_and_touches s key e v now :
  od_get key (__expiry_info s) = Some e ->
  od_mem key (__order s) = true ->
  od_get key (__data s) = Some v ->
  fst (timer_call timer s) = Return now ->
  now <= e ->
  let s' := snd (__getitem__ timer key s) in
  fst (__getitem__ timer key s) = Return v /\
  __data s' = __data s /\
  __expiry_info s' = __expiry_info s /\
  __order s' = od_remove key (__order s) ++ [(key, tt)].
Proof.
  intros He Ho Hv Hnow Hle. rewrite (getitem_live _ _ _ _ _ He Ho Hv Hnow Hle).
  simpl. destruct (timer_call timer s) as [r s1] eqn:E.
  destruct (timer_call_frame timer _ _ _ E) as (Hd & Hx & Hor). simpl.
  rewrite Hor. auto.
Qed.

(** X6. On a cache whose three structures hold the same keys, a lookup
    [cache[key]] never returns the value of an expired entry: when it
    returns [v], the key has a recorded expiry time that is [>=] the time
    the lookup read, and [v] is the value the store holds for the key. *)
Theorem getitem_returns_only_live s key v s' now :
  consistent s ->
  fst (timer_call timer s) = Return now ->
  __getitem__ timer key s = (Return v, s') ->
  exists e,
    od_get key (__expiry_info s) = Some e /\ now <= e /\
    od_get key (__data s) = Some v.
Proof.
  intros C Hnow. unfold __getitem__, bind at 1, try_KeyError.
  destruct (od_get key (__expiry_info s)) as [e|] eqn:He.
  - destruct (lockstep_get_data _ _ _ C He) as [Ho [v0 Hv]].
    rewrite (getexpiry_present _ _ _ He Ho). unfold bind.
    unfold timer_call in *. simpl __timer.
    destruct (_Timer__call__ timer (__timer s)) as [r t]. simpl in Hnow.
    subst r. simpl. destruct (Z.ltb_spec e now) as [Hlt|Hge].
    + unfold Cache__missing__, raise. discriminate.
    + unfold Cache__getitem__. simpl. rewrite Hv. intros [= <- <-].
      exists e. auto.
  - rewrite (getexpiry_absent _ _ He). unfold bind, ret.
    destruct (lockstep_absent _ _ C He) as [_ Hd].
    unfold Cache__getitem__. rewrite Hd. unfold Cache__missing__, raise.
    discriminate.
Qed.

(** X7. A key that is neither in the expiry index nor in the store is
    reported missing by the three access paths, none of which changes the
    cache or reads the clock: [cache[key]] and [del cache[key]] raise
    [KeyError(key)] and [key in cache] is false. *)
Theorem unknown_key_changes_nothing s key :
  od_get key (__expiry_info s) = None ->
  od_get key (__data s) = None ->
  __getitem__ timer key s = (Raise (KeyError key), s) /\
  __contains__ (V := V) timer key s = (Return false, s) /\
  __delitem__ timer key s = (Raise (KeyError key), s).
Proof. apply unknown_key. Qed.

Lemma delitem_present s key e now :
  od_mem key (__data s) = true ->
  od_mem key (__order s) = true ->
  od_get key (__expiry_info s) = Some e ->
  fst (timer_call timer s) = Return now ->
  fst (__delitem__ timer key s) =
    (if e <? now then Raise (KeyError key) else Return tt) /\
  __data (snd (__delitem__ timer key s)) = od_remove key (__data s) /\
  __order (snd (__delitem__ timer key s)) = od_remove key (__order s) /\
  __expiry_info (snd (__delitem__ timer key s)) =
    od_remove key (__expiry_info s).
Proof.
  intros Hd Ho He Hnow.
  unfold __delitem__, bind, Cache__delitem__, order_delitem, expiry_pop.
  rewrite Hd. simpl. rewrite Ho. simpl. rewrite He.
  unfold timer_call in *. simpl __timer.
  destruct (_Timer__call__ timer (__timer s)) as [r t]. simpl in Hnow. subst r.
  destruct (e <? now); simpl; auto.
Qed.

(** X8. Deleting a key that is in the three structures and whose expiry
    time has not passed returns, removes the key from the store, the
    access order index and the expiry index, and leaves the entry of
    every other key as it was. *)
Theorem delitem_live_removes_only_key s key e now :
  od_mem key (__data s) = true ->
  od_mem key (__order s) = true ->
  od_get key (__expiry_info s) = Some e ->
  fst (timer_call timer s) = Return now ->
  now <= e ->
  let s' := snd (__delitem__ timer key s) in
  fst (__delitem__ timer key s) = Return tt /\
  od_mem key (__data s') = false /\
  od_mem key (__order s') = false /\
  od_mem key (__expiry_info s') = false /\
  forall k', k' <> key ->
    od_get k' (__data s') = od_get k' (__data s) /\
    od_get k' (__expiry_info s') = od_get k' (__expiry_info s) /\
    od_mem k' (__order s') = od_mem k' (__order s).
Proof.
  intros Hd Ho He Hnow Hle.
  destruct (delitem_present s key e now Hd Ho He Hnow) as (Hr & Ed & Eo & Ex).
  cbv zeta. rewrite Hr, Ed, Eo, Ex, !od_mem_remove_same.
  replace (e <? now) with false by (symmetry; apply Z.ltb_ge; lia).
  repeat split; auto; rewrite ?od_get_remove, ?od_mem_remove;
    replace (keqb key k') with false
      by (symmetry; apply keqb_neq; congruence); auto.
Qed.

(** X9. After [del cache[key]] of a key that was in the three structures,
    whether the delete returned (live key) or raised (expired key), the
    key is gone for every access path: [key in cache] is false and
    [cache[key]] raises [KeyError(key)], neither changing the cache. *)
Theorem delete_then_lookup_misses s key e now :
  od_mem key (__data s) = true ->
  od_mem key (__order s) = true ->
  od_get key (__expiry_info s) = Some e ->
  fst (timer_call timer s) = Return now ->
  let s' := snd (__delitem__ timer key s) in
  __contains__ (V := V) timer key s' = (Return false, s') /\
  __getitem__ timer key s' = (Raise (KeyError key), s').
Proof.
  intros Hd Ho He Hnow.
  destruct (delitem_present s key e now Hd Ho He Hnow) as (_ & Ed & _ & Ex).
  cbv zeta.
  assert (Hx : od_get key (__expiry_info (snd (__delitem__ timer key s))) = None).
  { rewrite Ex, od_get_remove. now rewrite keqb_refl. }
  assert (Hv : od_get key (__data (snd (__delitem__ timer key s))) = None).
  { rewrite Ed, od_get_remove. now rewrite keqb_refl. }
  destruct (unknown_key _ key Hx Hv) as (G & Cn & _). auto.
Qed.

(** X10. Round trip of a write and a read: after [cache[key] = value]
    returned at clock reading [t], a lookup [cache[key]] made next, at a
    reading that is at most [t + ttl], returns [value]; and [key in
    cache] is true. *)
Theorem setitem_then_getitem s key value s1 :
  consistent s -> __nesting (__timer s) = 0 ->
  __setitem__ maxsize ttl timer getsizeof key value s = (Return tt, s1) ->
  timer (ticks (__timer s1)) <= timer (ticks (__timer s)) + ttl ->
  fst (__getitem__ timer key s1) = Return value /\
  fst (__contains__ (V := V) timer key s1) = Return true.
Proof.
  intros C Hn P Hle.
  assert (Tok : timer_ok (__timer s)) by (split; [lia | auto]).
  assert (Hsnap : snapshot timer s = Some (timer (ticks (__timer s))))
    by (unfold snapshot; now rewrite Hn).
  destruct (setitem_spec maxsize ttl timer getsizeof _ key value s _ s1
              C Tok Hsnap P) as [Ht (s0 & _ & Hd & He & Ho)].
  assert (Hn1 : __nesting (__timer s1) = 0).
  { rewrite Ht. destruct (timer_advances_scope timer s Tok) as (E & _).
    congruence. }
  assert (Hx : od_get key (__expiry_info s1)
               = Some (timer (ticks (__timer s)) + ttl)).
  { rewrite He, od_get_app, od_get_remove, keqb_refl. simpl.
    destruct (key_eq_dec key key); congruence. }
  assert (Hk : od_mem key (__order s1) = true).
  { rewrite Ho, od_mem_app, od_mem_single, keqb_refl. apply orb_true_r. }
  assert (Hv : od_get key (__data s1) = Some value).
  { rewrite Hd, od_get_set. destruct (key_eq_dec key key); congruence. }
  assert (Hnow : fst (timer_call timer s1) = Return (timer (ticks (__timer s1))))
    by now rewrite (timer_call_top timer s1 Hn1).
  split.
  - now rewrite (getitem_live s1 key _ value _ Hx Hk Hv Hnow Hle).
  - rewrite (contains_spec timer s1 key _ _ Hx Hnow). f_equal.
    now apply Z.leb_le.
Qed.

(** X11. Inside a snapshot scope, on a cache whose three structures hold
    the same keys, [key in cache] and [cache[key]] agree: the lookup
    returns a value exactly when the containment test is true, and both
    see the same snapshot. *)
Theorem contains_agrees_with_getitem s key now :
  consistent s -> in_scope now s ->
  (fst (__contains__ (V := V) timer key s) = Return true <->
   exists v, fst (__getitem__ timer key s) = Return v).
Proof.
  intros C Sc.
  assert (Hnow : fst (timer_call timer s) = Return now)
    by now rewrite (timer_call_in_scope timer now s Sc).
  destruct (od_get key (__expiry_info s)) as [e|] eqn:He.
  - destruct (lockstep_get_data _ _ _ C He) as [Ho [v Hv]].
    rewrite (contains_spec timer s key e now He Hnow).
    destruct (Z.leb_spec now e) as [Hle|Hgt].
    + rewrite (getitem_live s key e v now He Ho Hv Hnow Hle). simpl.
      split; eauto.
    + rewrite (getitem_expired timer s key e now He Ho Hnow Hgt). simpl.
      split; [discriminate | intros [v' Hv']; discriminate].
  - destruct (lockstep_absent _ _ C He) as [_ Hd].
    destruct (unknown_key s key He Hd) as (-> & -> & _). simpl.
    split; [discriminate | intros [v' Hv']; discriminate].
Qed.
End MoreLookups.

(** ** Purging, restoring, iterating *)

Section MorePurge.
Context {K V : Type} `{EqKey K}.
Variable maxsize : Z.
Variable ttl : Z.
Variable timer : nat -> Z.
Variable getsizeof : V -> Z.

Abbreviation cache := (TTLCache K V).
Abbreviation exec' := (exec maxsize ttl timer getsizeof).
Abbreviation reachable' := (reachable maxsize ttl timer getsizeof).
Implicit Types (s : cache) (key : K) (now : Z).

(** In a sorted index with unique keys, the entries that are live at
    [now] are the entries a purge at [now] leaves. *)
Lemma live_entries_purged now s :
  consistent s -> expiry_sorted s ->
  filter (fun p => now <=? snd p) (__expiry_info s) =
  __expiry_info (purged now s).
Proof.
  intros [(_ & Nx & _) _] Hs. unfold purged. simpl. unfold od_filter.
  apply filter_ext_in. intros [k e] Hin. simpl.
  rewrite expired_prefix_sorted by exact Hs.
  rewrite (od_In_get k (__expiry_info s) e Nx Hin).
  destruct (Z.ltb_spec e now); destruct (Z.leb_spec now e); auto; lia.
Qed.

Lemma purged_twice t1 t2 s :
  expiry_sorted s -> t1 <= t2 -> purged t1 (purged t2 s) = purged t2 s.
Proof.
  intros Hs Hle. apply all_live_purged. cbv zeta. intros k e He.
  pose proof (purged_live t2 s k e Hs He). lia.
Qed.

(** X12. Purging is idempotent and monotone in time: on a cache whose
    clock never ran backwards, after [expire(t2)] a further [expire(t1)]
    with [t1 <= t2] returns and changes nothing. *)
Theorem expire_again_changes_nothing s t1 t2 :
  monotone timer -> reachable' s -> t1 <= t2 ->
  let s' := snd (expire timer (Some t2) s) in
  expire timer (Some t1) s' = (Return tt, s').
Proof.
  intros Mono R Hle.
  destruct (reachable_Inv maxsize ttl timer getsizeof s Mono R)
    as (C & Hs & _ & _).
  assert (Cp : consistent (purged t2 s)) by now apply consistent_restrict.
  cbv zeta. rewrite (expire_some timer t2 s C). cbn [snd].
  rewrite (expire_some timer t1 (purged t2 s) Cp).
  now rewrite (purged_twice t1 t2 s Hs Hle).
Qed.

(** X13. Restoring a pickled cache purges it.  The pickled timer is
    rebuilt by [__reduce__] outside every scope, so [__setstate__(state)]
    reads the clock; on a state whose three structures hold the same keys
    and whose expiry index is sorted it returns and leaves in the store
    exactly the keys of [state] whose expiry time is [>=] that reading;
    the three structures still hold the same keys. *)
Theorem setstate_purges_at_restore_time state s0 t k :
  consistent state -> expiry_sorted state ->
  __timer state = _Timer__reduce__ t ->
  let now := timer (ticks t) in
  let s' := snd (__setstate__ timer state s0) in
  fst (__setstate__ timer state s0) = Return tt /\
  (od_mem k (__data s') = true <->
   exists e, od_get k (__expiry_info state) = Some e /\ now <= e) /\
  consistent s'.
Proof.
  intros C Hs Ht now.
  assert (Hn : __nesting (__timer state) = 0) by now rewrite Ht.
  destruct (__setstate__ timer state s0) as [r s'] eqn:P. cbn [fst snd].
  unfold __setstate__, bind in P.
  rewrite (timer_call_top timer state Hn) in P.
  replace (timer (ticks (__timer state))) with now in P
    by (subst now; now rewrite Ht).
  set (s1 := set_timer _ state) in P.
  assert (C1 : consistent s1) by exact C.
  rewrite (expire_some timer now s1 C1) in P. injection P as <- <-.
  split; auto. split; [|now apply consistent_restrict].
  unfold purged. simpl. rewrite od_mem_filter.
  rewrite expired_prefix_sorted by exact Hs.
  destruct C as [_ L]. destruct (L k) as [L1 L2]. rewrite L1, L2.
  unfold od_mem. destruct (od_get k (__expiry_info state)) as [e|]; simpl.
  - destruct (Z.ltb_spec e now); simpl; split;
      try discriminate; try (intros (e' & [= <-] & Hle'); lia).
    intros _. exists e. split; auto.
  - split; [discriminate | intros (e' & [=] & _)].
Qed.

(** X18. [expire()] with no time given reads the clock once and purges
    at that reading: on a cache whose three structures hold the same
    keys it returns and leaves the store and both indexes as
    [expire(now)] does for the reading [now]. *)
Theorem expire_without_time_purges_now s now :
  consistent s ->
  fst (timer_call timer s) = Return now ->
  let s' := snd (expire timer None s) in
  let sp := snd (expire timer (Some now) s) in
  fst (expire timer None s) = Return tt /\
  __data s' = __data sp /\
  __expiry_info s' = __expiry_info sp /\
  __order s' = __order sp /\
  __timer s' = __timer (snd (timer_call timer s)).
Proof.
  intros C Hnow. cbv zeta.
  rewrite (expire_some timer now s C). cbn [snd].
  destruct (expire timer None s) as [r s'] eqn:P. cbn [fst snd].
  unfold expire, bind at 1 in P.
  destruct (timer_call timer s) as [r1 s1] eqn:E. simpl in Hnow. subst r1.
  destruct (timer_call_frame timer _ _ _ E) as (Hd & Hx & Ho).
  assert (C1 : consistent s1) by (apply (consistent_same s); auto).
  unfold bind, get_self in P.
  rewrite (expire_loop_spec now _ s1 C1 eq_refl) in P. injection P as <- <-.
  unfold purged. simpl. rewrite Hd, Hx, Ho. auto.
Qed.

(** *** [__iter__] *)

Lemma iter_loop_in_scope now (items : list (K * Z)) s :
  in_scope now s ->
  iter_loop (V := V) timer items s =
  (Return (od_keys (filter (fun p => now <=? snd p) items)), s).
Proof.
  intros Sc. induction items as [|[k e] items IH]; simpl; [reflexivity|].
  unfold bind at 1.
  destruct (with_timer_ok timer bool
              (fun time => ret (negb (e <? time))) s
              (in_scope_timer_ok now s Sc)) as (now' & Hsnap & _ & ->).
  rewrite (snapshot_in_scope timer now s Sc) in Hsnap. injection Hsnap as <-.
  unfold ret at 1. rewrite (exited_entered_in_scope timer now s Sc).
  unfold bind. rewrite IH. unfold ret.
  replace (negb (e <? now)) with (now <=? e)
    by (destruct (Z.ltb_spec e now); destruct (Z.leb_spec now e); auto; lia).
  destruct (now <=? e); reflexivity.
Qed.

Lemma len_loop_sorted now (items : list (K * Z)) :
  StronglySorted Z.le (map snd items) ->
  len_loop items now (Z.of_nat (List.length items)) =
  Z.of_nat (List.length (filter (fun p => now <=? snd p) items)).
Proof.
  intros Hs.
  assert (L : forall c, len_loop items now c =
            c - Z.of_nat (List.length (filter (fun p => snd p <? now) items))).
  { induction items as [|[k e] items IH]; intros c; simpl; [lia|].
    inversion Hs as [|? ? Hs' Hall]; subst.
    destruct (Z.ltb_spec e now) as [Hlt|Hge].
    - rewrite (IH Hs'). simpl List.length. lia.
    - replace (filter (fun p => snd p <? now) items) with (@nil (K * Z));
        [simpl; lia|].
      symmetry. rewrite <- (filter_false items). apply filter_ext_in.
      intros [k' e'] Hin. simpl. rewrite Forall_forall in Hall.
      specialize (Hall e' (in_map snd _ _ Hin)). simpl in Hall.
      apply Z.ltb_ge. lia. }
  rewrite L.
  pose proof (filter_length (fun p : K * Z => snd p <? now) items) as Hlen.
  replace (filter (fun p => now <=? snd p) items)
    with (filter (fun p => negb (snd p <? now)) items).
  - lia.
  - apply filter_ext. intros [k e]. simpl.
    destruct (Z.ltb_spec e now); destruct (Z.leb_spec now e); auto; lia.
Qed.

(** X14. Inside a snapshot scope, on a cache whose three structures hold
    the same keys and whose expiry index is sorted, iterating the cache
    to the end changes nothing and yields, in the order of the expiry
    index, exactly the keys that [expire] at the snapshot time would
    leave; [len(cache)] is the number of keys yielded. *)
Theorem iter_yields_what_a_purge_leaves s now :
  consistent s -> expiry_sorted s -> in_scope now s ->
  __iter__ (V := V) timer s =
    (Return (od_keys (__expiry_info (snd (expire timer (Some now) s)))), s) /\
  fst (__len__ (V := V) timer s) =
    Return (Z.of_nat (List.length
              (od_keys (__expiry_info (snd (expire timer (Some now) s)))))).
Proof.
  intros C Hs Sc. rewrite (expire_some timer now s C). simpl snd.
  rewrite <- (live_entries_purged now s C Hs). split.
  - unfold __iter__, bind, get_self. now apply iter_loop_in_scope.
  - unfold __len__, bind. rewrite (timer_call_in_scope timer now s Sc).
    unfold get_self, ret. simpl. f_equal. unfold od_keys.
    rewrite length_map. now apply len_loop_sorted.
Qed.

Lemma iter_loop_top (items : list (K * Z)) :
  monotone timer ->
  forall s r s', __nesting (__timer s) = 0 ->
  iter_loop (V := V) timer items s = (r, s') ->
  let n := ticks (__timer s) in
  __data s' = __data s /\
  __expiry_info s' = __expiry_info s /\
  __order s' = __order s /\
  __nesting (__timer s') = 0 /\
  ticks (__timer s') = (n + List.length items)%nat /\
  exists keys, r = Return keys /\
    forall k,
      (In k keys -> exists e, In (k, e) items /\ timer n <= e) /\
      (forall e, In (k, e) items ->
         timer (n + List.length items) <= e -> In k keys).
Proof.
  intros Mono. induction items as [|[k e] items IH]; intros s r s' Hn P;
    cbv zeta.
  - simpl in P. injection P as <- <-. rewrite Nat.add_0_r.
    repeat split; auto.
    exists []. split; auto. intros k. split; [intros [] | intros e []].
  - simpl iter_loop in P. unfold bind at 1 in P.
    assert (Tok : timer_ok (__timer s)) by (split; [lia | auto]).
    destruct (with_timer_ok timer bool
                (fun time => ret (negb (e <? time))) s Tok)
      as (now & Hsnap & _ & E).
    rewrite E in P. clear E.
    unfold snapshot in Hsnap. rewrite Hn in Hsnap. simpl in Hsnap.
    injection Hsnap as <-. unfold ret at 1 in P.
    set (s1 := exited (entered timer s)) in P.
    assert (Hn1 : __nesting (__timer s1) = 0).
    { destruct (timer_advances_scope timer s Tok) as (E & _).
      subst s1. congruence. }
    assert (Hk1 : ticks (__timer s1) = S (ticks (__timer s))).
    { subst s1. unfold exited, entered, _Timer__enter__. simpl.
      rewrite Hn. reflexivity. }
    unfold bind in P. destruct (iter_loop timer items s1) as [r1 s2] eqn:E.
    destruct (IH s1 r1 s2 Hn1 E) as (Hd & Hx & Ho & Hn' & Hk' & keys & -> & Hkeys).
    unfold ret in P. injection P as <- <-.
    rewrite Hd, Hx, Ho, Hn', Hk', Hk1. rewrite Hk1 in Hkeys.
    replace (S (ticks (__timer s)) + List.length items)%nat
      with (ticks (__timer s) + S (List.length items))%nat in * by lia.
    simpl List.length. repeat split; auto.
    pose proof (Mono (ticks (__timer s)) (S (ticks (__timer s)))
                  (Nat.le_succ_diag_r _)) as M1.
    pose proof (Mono (ticks (__timer s))
                  (ticks (__timer s) + S (List.length items))%nat
                  (Nat.le_add_r _ _)) as M2.
    destruct (Z.ltb_spec e (timer (ticks (__timer s)))) as [Hlt|Hge]; simpl.
    + exists keys. split; auto. intros k0. destruct (Hkeys k0) as [A B]. split.
      * intros Hin. destruct (A Hin) as (e0 & Hin0 & Hle0).
        exists e0. split; auto. lia.
      * intros e0 [[= <- <-]|Hin0] Hlive; [lia|]. now apply (B e0).
    + exists (k :: keys). split; auto. intros k0.
      destruct (Hkeys k0) as [A B]. split.
      * intros [<-|Hin]; [exists e; split; auto; lia|].
        destruct (A Hin) as (e0 & Hin0 & Hle0). exists e0. split; auto. lia.
      * intros e0 [[= <- <-]|Hin0] Hlive; [left; auto|].
        right. now apply (B e0).
Qed.

(** X15. Outside every snapshot scope, with a clock that never runs
    backwards, iterating the cache to the end changes neither the store
    nor the two indexes, reads the clock once per entry of the expiry
    index, and yields only keys that were live at the first reading and
    every key that is still live at the reading after the last. *)
Theorem iter_reads_the_clock_per_entry s :
  monotone timer -> __nesting (__timer s) = 0 ->
  let r := __iter__ (V := V) timer s in
  let n := ticks (__timer s) in
  let m := List.length (__expiry_info s) in
  __data (snd r) = __data s /\
  __expiry_info (snd r) = __expiry_info s /\
  __order (snd r) = __order s /\
  ticks (__timer (snd r)) = (n + m)%nat /\
  exists keys, fst r = Return keys /\
    forall k,
      (In k keys ->
       exists e, In (k, e) (__expiry_info s) /\ timer n <= e) /\
      (forall e, In (k, e) (__expiry_info s) ->
         timer (n + m)%nat <= e -> In k keys).
Proof.
  intros Mono Hn. cbv zeta.
  destruct (__iter__ timer s) as [r s'] eqn:P. cbn [fst snd].
  unfold __iter__, bind, get_self in P.
  destruct (iter_loop_top (__expiry_info s) Mono s r s' Hn P)
    as (Hd & Hx & Ho & _ & Hk & R).
  auto.
Qed.


(** X17. Reading [currsize] purges first: on a cache whose clock never
    ran backwards it returns the accounted size of the store as
    [expire] at the snapshot time leaves it, and leaves the store and
    both indexes purged, so that no key of the store has an expiry time
    before the snapshot. *)
Theorem currsize_counts_after_purge s :
  monotone timer -> reachable' s ->
  let now := timer (ticks (__timer s)) in
  let sp := snd (expire timer (Some now) s) in
  fst (currsize timer getsizeof s) = Return (Cache_currsize getsizeof sp) /\
  __data (snd (currsize timer getsizeof s)) = __data sp /\
  __expiry_info (snd (currsize timer getsizeof s)) = __expiry_info sp /\
  __order (snd (currsize timer getsizeof s)) = __order sp /\
  forall k, od_mem k (__data (snd (currsize timer getsizeof s))) = true ->
    exists e, od_get k (__expiry_info s) = Some e /\ now <= e.
Proof.
  intros Mono R now sp.
  destruct (reachable_Inv maxsize ttl timer getsizeof s Mono R)
    as (C & Hs & _ & Hn).
  assert (Tok : timer_ok (__timer s)) by (split; [lia | auto]).
  assert (Esp : sp = purged now s)
    by (subst sp; now rewrite (expire_some timer now s C)).
  clearbody sp. subst sp.
  destruct (currsize timer getsizeof s) as [r s'] eqn:P. cbn [fst snd].
  destruct (with_timer_ok timer Z
              (fun time => bind (expire timer (Some time))
                 (fun _ => bind get_self
                    (fun s => ret (Cache_currsize getsizeof s)))) s Tok)
    as (now' & Hsnap & _ & E).
  unfold snapshot in Hsnap. rewrite Hn in Hsnap. simpl in Hsnap.
  injection Hsnap as <-. fold now in E.
  unfold currsize in P. rewrite E in P. clear E.
  assert (C1 : consistent (entered timer s)) by exact C.
  unfold bind at 1 in P. rewrite (expire_some timer now _ C1) in P.
  unfold bind, get_self, ret in P. injection P as <- <-.
  split; [reflexivity|]. split; [reflexivity|]. split; [reflexivity|].
  split; [reflexivity|].
  intros k. change (__data (exited (purged now (entered timer s))))
    with (__data (purged now s)).
  unfold purged. simpl. rewrite od_mem_filter.
  rewrite expired_prefix_sorted by exact Hs.
  destruct C as [_ L]. destruct (L k) as [L1 L2]. rewrite L1, L2.
  unfold od_mem. destruct (od_get k (__expiry_info s)) as [e|]; simpl.
  - destruct (Z.ltb_spec e now); simpl; [discriminate|].
    intros _. exists e. split; auto.
  - discriminate.
Qed.
End MorePurge.

(** ** The small cache, continued *)

Section SmallMore.
Local Open Scope string_scope.

Lemma small_ab_consistent : consistent small_ab.
Proof.
  apply (reachable_consistent 2 10 clock unit_size), small_ab_reachable.
Qed.

Lemma small_ab_sorted : expiry_sorted small_ab.
Proof.
  apply (reachable_Inv 2 10 clock unit_size small_ab clock_monotone),
    small_ab_reachable.
Qed.

Lemma getitem_live_returns_and_touches_witness :
  let s' := snd (__getitem__ clock "a" small_ab) in
  fst (__getitem__ clock "a" small_ab) = Return 1 /\
  __data s' = __data small_ab /\
  __expiry_info s' = __expiry_info small_ab /\
  __order s' = (od_remove "a" (__order small_ab) ++ [("a", tt)])%list.
Proof.
  apply (getitem_live_returns_and_touches clock small_ab "a" 10 1 2);
    try reflexivity.
  lia.
Defined.

Lemma getitem_returns_only_live_witness :
  exists e,
    od_get "b" (__expiry_info small_ab) = Some e /\ 2 <= e /\
    od_get "b" (__data small_ab) = Some 2.
Proof.
  apply (getitem_returns_only_live clock small_ab "b" 2
           (snd (__getitem__ clock "b" small_ab)) 2).
  - apply small_ab_consistent.
  - reflexivity.
  - reflexivity.
Defined.

Lemma unknown_key_changes_nothing_witness :
  __getitem__ clock "z" small_ab = (Raise (KeyError "z"), small_ab) /\
  __contains__ (V := Z) clock "z" small_ab = (Return false, small_ab) /\
  __delitem__ clock "z" small_ab = (Raise (KeyError "z"), small_ab).
Proof.
  apply (unknown_key_changes_nothing clock small_ab "z"); reflexivity.
Defined.

Lemma delitem_live_removes_only_key_witness :
  let s' := snd (__delitem__ clock "a" small_ab) in
  fst (__delitem__ clock "a" small_ab) = Return tt /\
  od_mem "a" (__data s') = false /\
  od_mem "a" (__order s') = false /\
  od_mem "a" (__expiry_info s') = false /\
  forall k', k' <> "a" ->
    od_get k' (__data s') = od_get k' (__data small_ab) /\
    od_get k' (__expiry_info s') = od_get k' (__expiry_info small_ab) /\
    od_mem k' (__order s') = od_mem k' (__order small_ab).
Proof.
  apply (delitem_live_removes_only_key clock small_ab "a" 10 2);
    try reflexivity.
  lia.
Defined.

Lemma delete_then_lookup_misses_witness :
  let s' := snd (__delitem__ clock "a" small_ab) in
  __contains__ (V := Z) clock "a" s' = (Return false, s') /\
  __getitem__ clock "a" s' = (Raise (KeyError "a"), s').
Proof.
  apply (delete_then_lookup_misses clock small_ab "a" 10 2); reflexivity.
Defined.

Lemma setitem_then_getitem_witness :
  fst (__getitem__ clock "a" (small_exec (Set_ "a" 1) small_init)) = Return 1 /\
  fst (__contains__ (V := Z) clock "a" (small_exec (Set_ "a" 1) small_init))
    = Return true.
Proof.
  apply (setitem_then_getitem 2 10 clock unit_size small_init "a" 1
           (small_exec (Set_ "a" 1) small_init)).
  - apply init_consistent.
  - reflexivity.
  - reflexivity.
  - vm_compute. discriminate.
Defined.

Lemma contains_agrees_with_getitem_witness :
  fst (__contains__ (V := Z) clock "a" small_ab_in_scope) = Return true <->
  exists v, fst (__getitem__ clock "a" small_ab_in_scope) = Return v.
Proof.
  apply (contains_agrees_with_getitem clock small_ab_in_scope "a" 2).
  - exact small_ab_consistent.
  - split; [reflexivity | reflexivity].
Defined.

Lemma expire_again_changes_nothing_witness :
  let s' := snd (expire clock (Some 11) small_ab) in
  expire clock (Some 5) s' = (Return tt, s').
Proof.
  apply (expire_again_changes_nothing 2 10 clock unit_size small_ab 5 11).
  - apply clock_monotone.
  - apply small_ab_reachable.
  - lia.
Defined.

Lemma setstate_purges_at_restore_time_witness :
  let now := clock (ticks (__timer small_ab)) in
  let s' := snd (__setstate__ clock small_ab_pickled small_init) in
  fst (__setstate__ clock small_ab_pickled small_init) = Return tt /\
  (od_mem "a" (__data s') = true <->
   exists e, od_get "a" (__expiry_info small_ab_pickled) = Some e /\ now <= e) /\
  consistent s'.
Proof.
  apply (setstate_purges_at_restore_time clock small_ab_pickled small_init
           (__timer small_ab) "a").
  - exact small_ab_consistent.
  - exact small_ab_sorted.
  - reflexivity.
Defined.

Lemma iter_yields_what_a_purge_leaves_witness :
  __iter__ (V := Z) clock small_ab_in_scope =
    (Return (od_keys (__expiry_info
                        (snd (expire clock (Some 2) small_ab_in_scope)))),
     small_ab_in_scope) /\
  fst (__len__ (V := Z) clock small_ab_in_scope) =
    Return (Z.of_nat (List.length
              (od_keys (__expiry_info
                          (snd (expire clock (Some 2) small_ab_in_scope)))))).
Proof.
  apply (iter_yields_what_a_purge_leaves clock small_ab_in_scope 2).
  - exact small_ab_consistent.
  - exact small_ab_sorted.
  - split; [reflexivity | reflexivity].
Defined.

Lemma iter_reads_the_clock_per_entry_witness :
  let r := __iter__ (V := Z) clock small_ab in
  let n := ticks (__timer small_ab) in
  let m := List.length (__expiry_info small_ab) in
  __data (snd r) = __data small_ab /\
  __expiry_info (snd r) = __expiry_info small_ab /\
  __order (snd r) = __order small_ab /\
  ticks (__timer (snd r)) = (n + m)%nat /\
  exists keys, fst r = Return keys /\
    forall k,
      (In k keys ->
       exists e, In (k, e) (__expiry_info small_ab) /\ clock n <= e) /\
      (forall e, In (k, e) (__expiry_info small_ab) ->
         clock (n + m)%nat <= e -> In k keys).
Proof.
  apply (iter_reads_the_clock_per_entry clock small_ab).
  - apply clock_monotone.
  - reflexivity.
Defined.


Lemma currsize_counts_after_purge_witness :
  let now := clock (ticks (__timer small_ab)) in
  let sp := snd (expire clock (Some now) small_ab) in
  fst (currsize clock unit_size small_ab) = Return (Cache_currsize unit_size sp) /\
  __data (snd (currsize clock unit_size small_ab)) = __data sp /\
  __expiry_info (snd (currsize clock unit_size small_ab)) = __expiry_info sp /\
  __order (snd (currsize clock unit_size small_ab)) = __order sp /\
  forall k, od_mem k (__data (snd (currsize clock unit_size small_ab))) = true ->
    exists e, od_get k (__expiry_info small_ab) = Some e /\ now <= e.
Proof.
  apply (currsize_counts_after_purge 2 10 clock unit_size small_ab).
  - apply clock_monotone.
  - apply small_ab_reachable.
Defined.

Lemma expire_without_time_purges_now_witness :
  let s' := snd (expire clock None small_ab) in
  let sp := snd (expire clock (Some 2) small_ab) in
  fst (expire clock None small_ab) = Return tt /\
  __data s' = __data sp /\
  __expiry_info s' = __expiry_info sp /\
  __order s' = __order sp /\
  __timer s' = __timer (snd (timer_call clock small_ab)).
Proof.
  apply (expire_without_time_purges_now clock small_ab 2).
  - apply small_ab_consistent.
  - reflexivity.
Defined.
End SmallMore.
